(** * koinish: a shallow embedding of the container of [src/core.ts]

    The container is a JavaScript object with mutable maps, a parent pointer
    and user callbacks.  The embedding keeps that shape:

    - every [Container] lives in a store and is named by its index, so that a
      scope and its parent alias the same root (the singleton cache of the
      root is written through any scope);
    - instances are addresses into a heap of objects, so reference equality
      of the source is equality of addresses;
    - [get], [getAsync], [instantiate], [construct] are state-and-exception
      passing functions, with fuel for the recursion through dependencies;
    - a promise is represented by its settlement: an [async] function is run
      up to its end when it is called and [await] reads the outcome.  For one
      caller that awaits each promise as soon as it has it (lines 280 and the
      factories of the test suite) this yields the same sequence of container
      updates as the JavaScript job queue.  [Promise.all] of line 395 is
      sequentialised (every call is started, in order). *)

From stdpp Require Import gmap strings list fin_maps.

(** ** Data model (core.ts, lines 6-97) *)

(** [Id<T> = Ctor<T>]: an identifier is a constructor reference.  Two
    constructors are the same identifier exactly when they are the same
    object; the number is that identity. *)
Definition Id := nat.

(** [ScopeKind = 'single' | 'factory' | 'scoped'] *)
Inductive ScopeKind := single | factory | scoped.

(** [Qualifier = string | symbol]; a symbol has an identity and a
    description. *)
Inductive Qualifier :=
| QString (s : string)
| QSymbol (ref : nat) (description : string).

#[global] Instance Qualifier_eq_dec : EqDecision Qualifier.
Proof. solve_decision. Defined.

#[global] Instance Qualifier_countable : Countable Qualifier.
Proof.
  refine (inj_countable'
            (fun q => match q with
                      | QString s => inl s
                      | QSymbol r d => inr (r, d)
                      end)
            (fun x => match x with
                      | inl s => QString s
                      | inr (r, d) => QSymbol r d
                      end) _).
  intros []; reflexivity.
Defined.

#[global] Instance ScopeKind_eq_dec : EqDecision ScopeKind.
Proof. solve_decision. Defined.

(** The errors the container throws, by the message of the source. *)
Inductive Err :=
| BeanOverrideError (key : string)     (* line 46: Provider override detected for key *)
| NoProvider (key : string)            (* lines 247, 273 *)
| CircularDependency (key : string)    (* lines 250, 276 *)
| AsyncInSyncGet (key : string)        (* line 255 *)
| InvalidProvider (key : string)       (* line 378 *)
| Thrown (msg : string).               (* an error thrown by user code *)

#[global] Instance Err_eq_dec : EqDecision Err.
Proof. solve_decision. Defined.

(** JavaScript values, as far as the container looks at them: [undefined],
    a primitive, a reference to an object, or a promise (given by its
    settlement). *)
Inductive Value :=
| VUndefined
| VPrim (s : string)
| VRef (addr : nat)
| VFulfilled (v : Value)
| VRejected (e : Err).

#[global] Instance Value_eq_dec : EqDecision Value.
Proof. solve_decision. Defined.

(** [x instanceof Promise] *)
Definition isPromise (v : Value) : bool :=
  match v with
  | VFulfilled _ | VRejected _ => true
  | _ => false
  end.

(** [x === undefined] *)
Definition isUndefined (v : Value) : bool :=
  match v with
  | VUndefined => true
  | _ => false
  end.

(** Resolving a promise with a promise adopts its state. *)
Definition promiseResolve (v : Value) : Value :=
  if isPromise v then v else VFulfilled v.

(** An object: the class it was built from and the constructor arguments. *)
Record Obj := mkObj { obj_class : Id; obj_args : list Value }.

(** What a call of a cleanup function does besides being recorded. *)
Inductive CallResult :=
| Returns            (* returns a plain value *)
| Throws             (* throws *)
| ReturnsPromise     (* returns a promise that fulfils *)
| ReturnsRejection.  (* returns a promise that rejects *)

(** [OnClose<T> = (instance: T) => void | Promise<void>] *)
Record OnClose := mkOnClose { hook_name : string; hook_result : CallResult }.

(** [Factory<T> = (ctx: FactoryCtx) => T | Promise<T>].  The body of a
    factory is a tree of the calls it makes: it can build objects, call
    [ctx.get], await [ctx.getAsync], return or throw. *)
Inductive Fac :=
| FReturn (v : Value)
| FThrow (msg : string)
| FNew (cls : Id) (args : list Value) (k : Value -> Fac)
| FGet (i : Id) (q : option Qualifier) (k : Value -> Fac)
| FAwaitGetAsync (i : Id) (q : option Qualifier) (k : Value -> Fac).

Record Factory := mkFactory { is_async : bool; body : Fac }.

(** [Provider<T>] (lines 74-89).  [useValue] absent is [VUndefined]. *)
Record Provider := mkProvider {
  kind : ScopeKind;
  id : Id;
  qualifier : option Qualifier;
  useClass : option Id;
  useFactory : option Factory;
  useValue : Value;
  deps : option (list Id);
  onClose : option OnClose
}.

(** [Module = { providers: Provider[] }] *)
Definition Module := list Provider.

Definition module (ps : list Provider) : Module := ps.
Definition modules (mods : list Module) : Module := concat mods.

(** [singleOf], [factoryOf], [scopedOf] (lines 139-172): either a factory, or
    the class itself with the options. *)
Record BaseOpts := mkOpts {
  o_qualifier : option Qualifier;
  o_deps : option (list Id);
  o_onClose : option OnClose
}.

Definition noOpts : BaseOpts := mkOpts None None None.

Definition providerOf (k : ScopeKind) (ctor : Id) (optsOrFactory : BaseOpts + Factory)
  : Provider :=
  match optsOrFactory with
  | inr f => mkProvider k ctor None None (Some f) VUndefined None None
  | inl o => mkProvider k ctor (o_qualifier o) (Some ctor) None VUndefined
                        (o_deps o) (o_onClose o)
  end.

Definition singleOf := providerOf single.
Definition factoryOf := providerOf factory.
Definition scopedOf := providerOf scoped.

(** [StartOptions] (lines 181-184) *)
Inductive OverrideStrategy := error | lastWins.

#[global] Instance OverrideStrategy_eq_dec : EqDecision OverrideStrategy.
Proof. solve_decision. Defined.

Record StartOptions := mkStartOptions {
  opt_allowOverride : option bool;
  opt_overrideStrategy : option OverrideStrategy
}.

(** An entry of the disposal list (line 215). *)
Record Disposable := mkDisposable {
  key : string;
  instance : Value;
  close : option OnClose
}.

(** The fields of [class Container] (lines 210-218). *)
Record Container := mkContainer {
  singles : gmap string Value;
  providers : gmap Id (gmap (option Qualifier) Provider);
  resolving : gset string;
  parent : option nat;
  scopedCache : gmap string Value;
  disposables : list Disposable;
  allowOverride : bool;
  overrideStrategy : OverrideStrategy
}.

(** A call of a cleanup function, as seen from outside. *)
Inductive Event :=
| CalledHook (name : string) (inst : Value)
| CalledMethod (name : string) (inst : Value).

(** The state of the program: the heap of objects, the containers (a
    container is named by its index), the cleanup calls made so far and the
    module variable [_container] (line 414). *)
Record World := mkWorld {
  heap : list Obj;
  containers : list Container;
  trace : list Event;
  _container : nat
}.

(** What the surrounding JavaScript program fixes: the [name] of each
    constructor, whether an identifier is a function, the parameter types
    that [Reflect.getMetadata('design:paramtypes', _)] reports (empty when
    there is no reflection), and the methods named dispose, close and
    destroy of each class. *)
Record Runtime := mkRuntime {
  fn_name : Id -> string;
  is_function : Id -> bool;
  design_paramtypes : Id -> list Id;
  method_of : Id -> string -> option CallResult
}.

(** ** State access *)

(** [new Container(parent, opts)] before [configure] (lines 210-223). *)
Definition newContainer (parent : option nat) : Container :=
  mkContainer ∅ ∅ ∅ parent ∅ [] false error.

(** The container named [c]. *)
Definition cont (w : World) (c : nat) : Container :=
  default (newContainer None) (containers w !! c).

Definition with_singles (f : gmap string Value -> gmap string Value) (c : Container) :=
  mkContainer (f (singles c)) (providers c) (resolving c) (parent c)
              (scopedCache c) (disposables c) (allowOverride c) (overrideStrategy c).

Definition with_providers
  (f : gmap Id (gmap (option Qualifier) Provider) -> gmap Id (gmap (option Qualifier) Provider))
  (c : Container) :=
  mkContainer (singles c) (f (providers c)) (resolving c) (parent c)
              (scopedCache c) (disposables c) (allowOverride c) (overrideStrategy c).

Definition with_resolving (f : gset string -> gset string) (c : Container) :=
  mkContainer (singles c) (providers c) (f (resolving c)) (parent c)
              (scopedCache c) (disposables c) (allowOverride c) (overrideStrategy c).

Definition with_scopedCache (f : gmap string Value -> gmap string Value) (c : Container) :=
  mkContainer (singles c) (providers c) (resolving c) (parent c)
              (f (scopedCache c)) (disposables c) (allowOverride c) (overrideStrategy c).

Definition with_disposables (f : list Disposable -> list Disposable) (c : Container) :=
  mkContainer (singles c) (providers c) (resolving c) (parent c)
              (scopedCache c) (f (disposables c)) (allowOverride c) (overrideStrategy c).

(** Update of the container named [c], in place. *)
Definition update (c : nat) (f : Container -> Container) (w : World) : World :=
  mkWorld (heap w) (alter f c (containers w)) (trace w) (_container w).

(** ** The monad of the methods: state, exceptions, fuel *)

Inductive Outcome (A : Type) :=
| Ok (a : A)
| Throw (e : Err)
| OutOfFuel.

Arguments Ok {A} a.
Arguments Throw {A} e.
Arguments OutOfFuel {A}.

Definition M (A : Type) : Type := World -> Outcome A * World.

Definition ret {A} (a : A) : M A := fun w => (Ok a, w).

Definition throw {A} (e : Err) : M A := fun w => (Throw e, w).

Definition bind {A B} (m : M A) (f : A -> M B) : M B :=
  fun w =>
    match m w with
    | (Ok a, w') => f a w'
    | (Throw e, w') => (Throw e, w')
    | (OutOfFuel, w') => (OutOfFuel, w')
    end.

Declare Scope js_scope.
Delimit Scope js_scope with js.
Notation "'let!' x ':=' m 'in' k" := (bind m (fun x => k))
  (at level 10, x name, m at level 100, k at level 200) : js_scope.
Open Scope js_scope.

(** [xs.map(f)] for an [f] with effects: left to right, the first exception
    ends it. *)
Fixpoint mapM {A B} (f : A -> M B) (xs : list A) : M (list B) :=
  match xs with
  | [] => ret []
  | x :: rest =>
      let! y := f x in
      let! ys := mapM f rest in
      ret (y :: ys)
  end.

(** [new ctor(...args)]: a fresh object at the next address.  Constructors
    store their arguments and do nothing else. *)
Definition new (ctor : Id) (args : list Value) : M Value :=
  fun w =>
    (Ok (VRef (length (heap w))),
     mkWorld (heap w ++ [mkObj ctor args]) (containers w) (trace w) (_container w)).

(** [await x] *)
Definition await (v : Value) : M Value :=
  match v with
  | VFulfilled x => ret x
  | VRejected e => throw e
  | _ => ret v
  end.

(** The call of an [async] function whose body is [m]: the result is a
    promise, also when the body throws. *)
Definition async (m : M Value) : M Value :=
  fun w =>
    match m w with
    | (Ok v, w') => (Ok (promiseResolve v), w')
    | (Throw e, w') => (Ok (VRejected e), w')
    | (OutOfFuel, w') => (OutOfFuel, w')
    end.

(** [Promise.all(xs.map(f))], awaited: every call is made, in order; the
    result is the list of values, or the first rejection. *)
Fixpoint awaitAll {A B} (f : A -> M B) (xs : list A) : M (list B) :=
  match xs with
  | [] => ret []
  | x :: rest =>
      fun w =>
        match f x w with
        | (OutOfFuel, w1) => (OutOfFuel, w1)
        | (Throw e, w1) =>
            match awaitAll f rest w1 with
            | (OutOfFuel, w2) => (OutOfFuel, w2)
            | (_, w2) => (Throw e, w2)
            end
        | (Ok y, w1) =>
            match awaitAll f rest w1 with
            | (Ok ys, w2) => (Ok (y :: ys), w2)
            | (Throw e, w2) => (Throw e, w2)
            | (OutOfFuel, w2) => (OutOfFuel, w2)
            end
        end
  end.

(** ** The container (lines 209-400) *)

Section ContainerMethods.

Variable rt : Runtime.

(** [keyOf] (lines 344-348) *)
Definition stringOfQualifier (q : Qualifier) : string :=
  match q with
  | QString s => s
  | QSymbol _ d => "Symbol(" +:+ d +:+ ")"
  end.

Definition keyOf (ident : Id) (q : option Qualifier) : string :=
  let qStr := match q with
              | None => ""
              | Some q => "::" +:+ stringOfQualifier q
              end in
  (if decide (fn_name rt ident = "") then "[[ctor]]" else fn_name rt ident) +:+ qStr.

(** [configure] (lines 225-228) *)
Definition configure (opts : StartOptions) (c : Container) : Container :=
  let allow := default false (opt_allowOverride opts) in
  mkContainer (singles c) (providers c) (resolving c) (parent c)
              (scopedCache c) (disposables c)
              allow
              (default (if allow then lastWins else error) (opt_overrideStrategy opts)).

(** The constructor (lines 220-223): returns the name of the new container. *)
Definition Container_new (parent : option nat) (opts : option StartOptions)
  : World -> nat * World :=
  fun w =>
    let c := newContainer parent in
    let c := match opts with Some o => configure o c | None => c end in
    (length (containers w),
     mkWorld (heap w) (containers w ++ [c]) (trace w) (_container w)).

(** [beginScope] (lines 234-236) *)
Definition beginScope (this : nat) : World -> nat * World :=
  fun w =>
    Container_new (Some this)
      (Some (mkStartOptions (Some (allowOverride (cont w this)))
                            (Some (overrideStrategy (cont w this))))) w.

(** [setProvider] (lines 322-338) *)
Definition setProvider (this : nat) (p : Provider) : M unit :=
  fun w =>
    let inner := default ∅ (providers (cont w this) !! id p) in
    let key := qualifier p in
    let kStr := keyOf (id p) key in
    if bool_decide (is_Some (inner !! key)) &&
       (negb (allowOverride (cont w this))
        || bool_decide (overrideStrategy (cont w this) = error))
    then (Throw (BeanOverrideError kStr), w)
    else (Ok tt, update this (with_providers (fun ps => <[id p := <[key := p]> inner]> ps)) w).

(** [load] (lines 230-232) *)
Fixpoint load (this : nat) (mdl : Module) : M unit :=
  match mdl with
  | [] => ret tt
  | p :: rest => let! u := setProvider this p in load this rest
  end.

(** [getProvider] (lines 340-342).  The chain of parents is followed for at
    most [n] containers; it cannot be longer than the store. *)
Fixpoint getProvider_from (n : nat) (w : World) (this : nat) (ident : Id)
  (q : option Qualifier) : option Provider :=
  match n with
  | 0 => None
  | S n =>
      match providers (cont w this) !! ident ≫= (fun inner => inner !! q) with
      | Some p => Some p
      | None =>
          match parent (cont w this) with
          | Some up => getProvider_from n w up ident q
          | None => None
          end
      end
  end.

Definition getProvider (w : World) (this : nat) (ident : Id) (q : option Qualifier)
  : option Provider :=
  getProvider_from (length (containers w)) w this ident q.

(** [root] (lines 356-358) *)
Fixpoint root_from (n : nat) (w : World) (this : nat) : nat :=
  match n with
  | 0 => this
  | S n =>
      match parent (cont w this) with
      | Some up => root_from n w up
      | None => this
      end
  end.

Definition root (w : World) (this : nat) : nat :=
  root_from (length (containers w)) w this.

(** [cacheAndTrack] (lines 350-354) *)
Definition cacheAndTrack (this : nat) (p : Provider) (keyStr : string) (inst : Value)
  : World -> World :=
  fun w =>
    let w :=
      if decide (kind p = single)
      then update (root w this) (with_singles (fun m => <[keyStr := inst]> m)) w
      else w in
    let w :=
      if decide (kind p = scoped)
      then update this (with_scopedCache (fun m => <[keyStr := inst]> m)) w
      else w in
    if decide (kind p ≠ factory)
    then update this
           (with_disposables (fun ds => ds ++ [mkDisposable keyStr inst (onClose p)])) w
    else w.

(** [this.resolving.add(k)] and [this.resolving.delete(k)] *)
Definition resolving_add (this : nat) (k : string) : World -> World :=
  update this (with_resolving (fun s => {[k]} ∪ s)).

Definition resolving_delete (this : nat) (k : string) : World -> World :=
  update this (with_resolving (fun s => s ∖ {[k]})).

(** The methods that call each other ([get], [getAsync], [instantiate],
    [construct], [constructAsync] and the factories), over the recursive
    calls [get_rec] and [getAsync_rec]. *)
Section Bodies.

Variable get_rec : nat -> Id -> option Qualifier -> M Value.
Variable getAsync_rec : nat -> Id -> option Qualifier -> M Value.

(** [construct] (lines 381-389) *)
Definition construct (this : nat) (ctor : Id) : M Value :=
  let paramTypes := design_paramtypes rt ctor in
  match paramTypes with
  | _ :: _ =>
      let! args := mapM (fun dep => get_rec this dep None) paramTypes in
      new ctor args
  | [] => new ctor []
  end.

(** [constructAsync] (lines 391-399), awaited. *)
Definition constructAsync (this : nat) (ctor : Id) : M Value :=
  let paramTypes := design_paramtypes rt ctor in
  match paramTypes with
  | _ :: _ =>
      let! args := awaitAll (fun dep => getAsync_rec this dep None) paramTypes in
      new ctor args
  | [] => new ctor []
  end.

(** The body of a factory, run with [ctx.get] and [ctx.getAsync] bound to
    [this] (lines 364-367). *)
Fixpoint runFac (this : nat) (f : Fac) : M Value :=
  match f with
  | FReturn v => ret v
  | FThrow msg => throw (Thrown msg)
  | FNew cls args k => let! v := new cls args in runFac this (k v)
  | FGet i q k => let! v := get_rec this i q in runFac this (k v)
  | FAwaitGetAsync i q k => let! v := getAsync_rec this i q in runFac this (k v)
  end.

Definition callFactory (this : nat) (f : Factory) : M Value :=
  if is_async f then async (runFac this (body f)) else runFac this (body f).

(** [instantiate] (lines 360-379) *)
Definition instantiate (this : nat) (p : Provider) : M Value :=
  if negb (isUndefined (useValue p)) then ret (useValue p)
  else
    match useFactory p with
    | Some f => callFactory this f
    | None =>
        match useClass p with
        | Some cls =>
            match deps p with
            | Some (d :: ds) =>
                let! args := mapM (fun d => get_rec this d None) (d :: ds) in
                new cls args
            | _ => construct this cls
            end
        | None => throw (InvalidProvider (keyOf (id p) (qualifier p)))
        end
    end.

(** [get] (lines 238-262) *)
Definition get_body (this : nat) (ident : Id) (q : option Qualifier) : M Value :=
  fun w =>
    let k := keyOf ident q in
    match singles (cont w this) !! k with
    | Some v => (Ok v, w)
    | None =>
        match scopedCache (cont w this) !! k with
        | Some v => (Ok v, w)
        | None =>
            match getProvider w this ident q with
            | None =>
                if is_function rt ident then construct this ident w
                else (Throw (NoProvider k), w)
            | Some p =>
                if decide (k ∈ resolving (cont w this))
                then (Throw (CircularDependency k), w)
                else
                  match instantiate this p (resolving_add this k w) with
                  | (Ok maybe, w') =>
                      if isPromise maybe then (Throw (AsyncInSyncGet k), w')
                      else (Ok maybe,
                            resolving_delete this k (cacheAndTrack this p k maybe w'))
                  | (Throw e, w') => (Throw e, w')
                  | (OutOfFuel, w') => (OutOfFuel, w')
                  end
            end
        end
    end.

(** [getAsync] (lines 264-285), awaited: an exception is the rejection of
    the promise it returns. *)
Definition getAsync_body (this : nat) (ident : Id) (q : option Qualifier) : M Value :=
  fun w =>
    let k := keyOf ident q in
    match singles (cont w this) !! k with
    | Some v => await v w
    | None =>
        match scopedCache (cont w this) !! k with
        | Some v => await v w
        | None =>
            match getProvider w this ident q with
            | None =>
                if is_function rt ident then constructAsync this ident w
                else (Throw (NoProvider k), w)
            | Some p =>
                if decide (k ∈ resolving (cont w this))
                then (Throw (CircularDependency k), w)
                else
                  match instantiate this p (resolving_add this k w) with
                  | (Ok maybe, w') =>
                      match await maybe w' with
                      | (Ok inst, w'') =>
                          (Ok inst,
                           resolving_delete this k (cacheAndTrack this p k inst w''))
                      | r => r
                      end
                  | (Throw e, w') => (Throw e, w')
                  | (OutOfFuel, w') => (OutOfFuel, w')
                  end
            end
        end
    end.

End Bodies.

(** The recursion of [get] and [getAsync] through each other, [fuel] calls
    deep. *)
Fixpoint get (fuel : nat) (this : nat) (ident : Id) (q : option Qualifier) : M Value :=
  match fuel with
  | 0 => fun w => (OutOfFuel, w)
  | S n => get_body (get n) (getAsync n) this ident q
  end
with getAsync (fuel : nat) (this : nat) (ident : Id) (q : option Qualifier) : M Value :=
  match fuel with
  | 0 => fun w => (OutOfFuel, w)
  | S n => getAsync_body (get n) (getAsync n) this ident q
  end.

(** [override] (lines 287-292) *)
Definition override (this : nat) (ident : Id) (value : Value) (q : option Qualifier)
  : M unit :=
  let p := mkProvider single ident q None None value None None in
  let! u := setProvider this p in
  fun w =>
    let k := keyOf ident q in
    (Ok tt, update (root w this) (with_singles (fun m => <[k := value]> m)) w).

(** [reset] (lines 313-319) *)
Definition reset (this : nat) : World -> World :=
  update this (fun c =>
    mkContainer ∅ ∅ ∅ (parent c) ∅ [] (allowOverride c) (overrideStrategy c)).

(** The call of a cleanup function: it is recorded, and it returns, throws
    or returns a promise. *)
Definition call (ev : Event) (r : CallResult) : M Value :=
  fun w =>
    let w' := mkWorld (heap w) (containers w) (trace w ++ [ev]) (_container w) in
    match r with
    | Returns => (Ok VUndefined, w')
    | Throws => (Throw (Thrown "cleanup failed"), w')
    | ReturnsPromise => (Ok (VFulfilled VUndefined), w')
    | ReturnsRejection => (Ok (VRejected (Thrown "cleanup failed")), w')
    end.

(** [obj?.[fn]] when it is a function: the method of the class of [obj]. *)
Definition methodOf (w : World) (obj : Value) (fn : string) : option CallResult :=
  match obj with
  | VRef a => heap w !! a ≫= (fun o => method_of rt (obj_class o) fn)
  | _ => None
  end.

(** [tryAutoDispose] (lines 402-412), awaited. *)
Fixpoint tryAutoDispose_loop (fns : list string) (obj : Value) : M unit :=
  match fns with
  | [] => ret tt
  | fn :: rest =>
      fun w =>
        match methodOf w obj fn with
        | Some m =>
            (let! r := call (CalledMethod fn obj) m in
             let! u := await r in
             ret tt) w
        | None => tryAutoDispose_loop rest obj w
        end
  end.

Definition tryAutoDispose (obj : Value) : M unit :=
  tryAutoDispose_loop ["dispose"; "close"; "destroy"] obj.

(** The body of the [try] of [shutdown] (lines 298-303). *)
Definition disposeEntry (d : Disposable) : M unit :=
  match close d with
  | Some h =>
      let! r := call (CalledHook (hook_name h) (instance d)) (hook_result h) in
      let! u := await r in
      ret tt
  | None => tryAutoDispose (instance d)
  end.

(** [try { m } catch { /* swallow */ }] *)
Definition swallow (m : M unit) : World -> World :=
  fun w => snd (m w).

(** The loop of [shutdown] (lines 295-307) from index [n - 1] down to 0. *)
Fixpoint shutdown_loop (this : nat) (n : nat) (w : World) : World :=
  match n with
  | 0 => w
  | S i =>
      let w' := match disposables (cont w this) !! i with
                | Some d => swallow (disposeEntry d) w
                | None => w
                end in
      shutdown_loop this i w'
  end.

(** [shutdown] (lines 294-311), awaited. *)
Definition shutdown (this : nat) : World -> World :=
  fun w =>
    let w := shutdown_loop this (length (disposables (cont w this))) w in
    update this (fun c =>
      mkContainer ∅ (providers c) (resolving c) (parent c) ∅ []
                  (allowOverride c) (overrideStrategy c)) w.

(** ** The functions of the module (lines 414-504), on [_container] *)

(** [startDI] (lines 423-432): the modules, and the last options given. *)
Definition startDI (mods : list Module) (opts : option StartOptions) : M unit :=
  fun w =>
    let '(c, w) := Container_new None (Some (default (mkStartOptions None None) opts)) w in
    load c (modules mods) (mkWorld (heap w) (containers w) (trace w) c).

Definition inject (fuel : nat) (ident : Id) (q : option Qualifier) : M Value :=
  fun w => get fuel (_container w) ident q w.

Definition injectAsync (fuel : nat) (ident : Id) (q : option Qualifier) : M Value :=
  fun w => getAsync fuel (_container w) ident q w.

(** The module function [beginScope] (lines 443-450) returns a handle on the
    scope; here, its name. *)
Definition beginScopeDI : World -> nat * World :=
  fun w => beginScope (_container w) w.

Definition overrideDI (ident : Id) (value : Value) (q : option Qualifier) : M unit :=
  fun w => override (_container w) ident value q w.

Definition shutdownDI : World -> World :=
  fun w => shutdown (_container w) w.

Definition resetDI : World -> World :=
  fun w => reset (_container w) w.

End ContainerMethods.

(** The state when the module is loaded: one container, no object. *)
Definition initial : World := mkWorld [] [newContainer None] [] 0.

(** ** Notions used in the statements *)

(** The policy under which a second registration replaces the first:
    override allowed and strategy "last wins". *)
Definition lastWinsPolicy (c : Container) : bool :=
  allowOverride c && bool_decide (overrideStrategy c = lastWins).

(** The provider stored in the registry of [this] itself for a key. *)
Definition registered (w : World) (this : nat) (ident : Id) (q : option Qualifier)
  : option Provider :=
  providers (cont w this) !! ident ≫= (fun inner => inner !! q).

(** How many providers the registry of [this] holds for an identifier, over
    all qualifiers. *)
Definition registrations (w : World) (this : nat) (ident : Id) : nat :=
  size (default ∅ (providers (cont w this) !! ident)).

(** The conventional cleanup method of an instance: the first of dispose,
    close, destroy that it has. *)
Definition conventionalMethod (rt : Runtime) (w : World) (obj : Value) : option string :=
  List.find (fun fn => bool_decide (is_Some (methodOf rt w obj fn)))
            ["dispose"; "close"; "destroy"].

(** The cleanup call that an entry of the disposal list asks for: its hook
    when it has one, otherwise its conventional method when it has one. *)
Definition cleanupCalls (rt : Runtime) (w : World) (d : Disposable) : list Event :=
  match close d with
  | Some h => [CalledHook (hook_name h) (instance d)]
  | None =>
      match conventionalMethod rt w (instance d) with
      | Some fn => [CalledMethod fn (instance d)]
      | None => []
      end
  end.

(** The world after some more cleanup calls. *)
Definition traced (w : World) (evs : list Event) : World :=
  mkWorld (heap w) (containers w) (trace w ++ evs) (_container w).

(** The world after [new ctor(...args)]. *)
Definition allocated (w : World) (ctor : Id) (args : list Value) : World :=
  mkWorld (heap w ++ [mkObj ctor args]) (containers w) (trace w) (_container w).

(** A request: an identifier with an optional qualifier. *)
Definition Request : Type := Id * option Qualifier.

(** [dependsFirstOn w this r b]: the provider found from [this] for the
    request [r] constructs a class and declares [b] as its first dependency
    (no value, no factory, [deps = [b, ...]]). *)
Definition dependsFirstOn (w : World) (this : nat) (r : Request) (b : Id) : Prop :=
  exists p ds,
    getProvider w this r.1 r.2 = Some p /\
    useValue p = VUndefined /\
    useFactory p = None /\
    is_Some (useClass p) /\
    deps p = Some (b :: ds).

(** [cyclic rt w this rs]: each request of [rs] has no cached instance in
    [this] and depends first on an identifier that is again in [rs].
    Following first dependencies from a request of [rs] never leaves [rs]:
    as [rs] is finite, it runs into a cycle. *)
Definition cyclic (rt : Runtime) (w : World) (this : nat) (rs : list Request) : Prop :=
  forall r, r ∈ rs ->
    singles (cont w this) !! keyOf rt r.1 r.2 = None /\
    scopedCache (cont w this) !! keyOf rt r.1 r.2 = None /\
    exists b, dependsFirstOn w this r b /\ (b, None) ∈ rs.

(** The keys of the requests of [rs]. *)
Definition keysOf (rt : Runtime) (rs : list Request) : gset string :=
  list_to_set (map (fun r => keyOf rt r.1 r.2) rs).

(** [stable c w0 w]: what a resolution on the container [c] started in [w0]
    can have changed when the state is [w].  The heap has grown; [c] may
    have new cache entries, disposal entries and in-flight marks; the root
    of [c] may have new singletons; everything else is as in [w0]. *)
Definition stable (c : nat) (w0 w : World) : Prop :=
  length (containers w) = length (containers w0) /\
  length (heap w0) <= length (heap w) /\
  trace w = trace w0 /\
  _container w = _container w0 /\
  (forall x, parent (cont w x) = parent (cont w0 x) /\
             providers (cont w x) = providers (cont w0 x) /\
             allowOverride (cont w x) = allowOverride (cont w0 x) /\
             overrideStrategy (cont w x) = overrideStrategy (cont w0 x)) /\
  (forall x, x <> c ->
             scopedCache (cont w x) = scopedCache (cont w0 x) /\
             disposables (cont w x) = disposables (cont w0 x) /\
             resolving (cont w x) = resolving (cont w0 x)) /\
  (forall x, x <> root w0 c -> singles (cont w x) = singles (cont w0 x)).

(** Parents are created before their scopes. *)
Definition wfParents (w : World) : Prop :=
  forall x up, parent (cont w x) = Some up -> up < x.

(** The provider constructs a class: no value, no factory. *)
Definition constructsClass (p : Provider) : Prop :=
  useValue p = VUndefined /\ useFactory p = None /\ is_Some (useClass p).

(** A container as [beginScope] makes it: nothing cached, nothing
    registered, nothing to dispose, chained to [up]. *)
Definition freshScope (k : Container) (up : nat) : Prop :=
  singles k = ∅ /\ scopedCache k = ∅ /\ disposables k = [] /\
  providers k = ∅ /\ resolving k = ∅ /\ parent k = Some up.

(** ** The classes of the test suite, and a few more *)

Definition Repo : Id := 1.
Definition Service : Id := 2.
Definition Presenter : Id := 3.
Definition Conn : Id := 4.
Definition Db : Id := 5.
Definition ClassA : Id := 6.
Definition ClassB : Id := 7.
(** Two classes declared with the same name in two places. *)
Definition Svc : Id := 8.
Definition Svc' : Id := 9.
Definition Unregistered : Id := 10.
Definition RequestCtx : Id := 11.
Definition Cache : Id := 12.

Definition className (c : Id) : string :=
  default "" (["Object"; "Repo"; "Service"; "Presenter"; "Conn"; "Db"; "A"; "B";
               "Svc"; "Svc"; "Unregistered"; "RequestCtx"; "Cache"] !! c).

(** [Db] has a [close] method and [RequestCtx] a [dispose] method. *)
Definition classMethod (c : Id) (fn : string) : option CallResult :=
  if decide (c = Db /\ fn = "close") then Some Returns
  else if decide (c = RequestCtx /\ fn = "dispose") then Some Returns
  else None.

(** The runtime of the suite without reflection metadata. *)
Definition noReflect : Runtime :=
  mkRuntime className (fun _ => true) (fun _ => []) classMethod.


Definition withDeps (ds : list Id) : BaseOpts + Factory := inl (mkOpts None (Some ds) None).

(** [async () => new Conn()] and
    [async ({getAsync}) => new Db(await getAsync(Conn))] *)
Definition connFactory : Factory :=
  mkFactory true (FNew Conn [] FReturn).
Definition dbFactory : Factory :=
  mkFactory true (FAwaitGetAsync Conn None (fun conn => FNew Db [conn] FReturn)).

(** The world after [startDI(module(...ps))]. *)
Definition started (rt : Runtime) (ps : list Provider) (opts : option StartOptions)
  : World :=
  snd (startDI rt [module ps] opts initial).

(** [startDI(module(singleOf(Repo)))] *)
Definition oneSingle : World :=
  started noReflect [singleOf Repo (inl noOpts)] None.

(** [startDI(module(singleOf(Svc), singleOf(Svc')))], two classes named Svc *)
Definition twoSvc : World :=
  started noReflect [singleOf Svc (inl noOpts); singleOf Svc' (inl noOpts)] None.

(** [startDI(module(singleOf(Svc, {deps: [Svc']}), singleOf(Svc')))] *)
Definition svcNeedsSvc' : World :=
  started noReflect [singleOf Svc (withDeps [Svc']); singleOf Svc' (inl noOpts)] None.

(** [startDI(module(singleOf(Conn, async () => new Conn())))] *)
Definition asyncConn : World :=
  started noReflect [singleOf Conn (inr connFactory)] None.

(** A provider with a class and a factory, and one with no mode at all. *)
Definition twoModes : Provider :=
  mkProvider single Repo None (Some Repo)
             (Some (mkFactory false (FNew Service [] FReturn))) VUndefined None None.

Definition noMode : Provider :=
  mkProvider single Repo None None None VUndefined None None.

Definition withTwoModes : World := started noReflect [twoModes] None.
Definition withNoMode : World := started noReflect [noMode] None.

(** [startDI(A, B, {allowOverride: true, overrideStrategy: 'lastWins'})]
    before the modules are loaded. *)
Definition lastWinsWorld : World :=
  started noReflect [] (Some (mkStartOptions (Some true) (Some lastWins))).

(** The suite's [Db] (with a [close] method) and [Cache] (with a hook),
    both resolved. *)
Definition cacheHook : OnClose := mkOnClose "manual:cache" Throws.

Definition dbAndCache : World :=
  let w := started noReflect
             [singleOf Db (inl noOpts);
              singleOf Cache (inl (mkOpts None None (Some cacheHook)))] None in
  let w := snd (inject noReflect 5 Db None w) in
  snd (inject noReflect 5 Cache None w).


(** [startDI(module(singleOf(A, {deps: [B]}), singleOf(B, {deps: [A]})))] *)
Definition aNeedsB : World :=
  started noReflect [singleOf ClassA (withDeps [ClassB]);
                     singleOf ClassB (withDeps [ClassA])] None.

(** [startDI(module(scopedOf(RequestCtx)))] *)
Definition oneScoped : World :=
  started noReflect [scopedOf RequestCtx (inl noOpts)] None.

(** A [scoped] provider of a literal value:
    [{kind: 'scoped', id: RequestCtx, useValue: shared}], where [shared] is
    an object made before the container is started. *)
Definition sharedValue : Provider :=
  mkProvider scoped RequestCtx None None None (VRef 0) None None.

Definition scopedValue : World :=
  snd (startDI noReflect [module [sharedValue]] None
         (mkWorld [mkObj RequestCtx []] [newContainer None] [] 0)).

(** Two scopes begun from the container of [oneScoped], and the first
    resolution of [RequestCtx] in the first one. *)
Definition twoScopes : World := (beginScope 1 (beginScope 1 oneScoped).2).2.

Definition twoScopesResolved : World :=
  snd (get noReflect 3 2 RequestCtx None twoScopes).

(** The module of the first test of the suite:
    [module(singleOf(Repo), singleOf(Service, {deps: [Repo]}),
            factoryOf(Presenter, {deps: [Service]}))] *)
Definition suiteModule : Module :=
  module [singleOf Repo (inl noOpts);
          singleOf Service (withDeps [Repo]);
          factoryOf Presenter (withDeps [Service])].

(** [startDI(module(singleOf(Conn, ...), singleOf(Db, ...)))] with the two
    [async] factories. *)
Definition connAndDb : World :=
  started noReflect [singleOf Conn (inr connFactory); singleOf Db (inr dbFactory)] None.

(** ** Notions used in the further properties *)

(** The key under which the registry stores a provider. *)
Definition providerKey (p : Provider) : Id * option Qualifier :=
  (id p, qualifier p).

(** The provider of a module that is registered last for a key. *)
Definition lastFor (ps : list Provider) (ident : Id) (q : option Qualifier)
  : option Provider :=
  last (filter (fun p => providerKey p = (ident, q)) ps).

(** [startDI(module(singleOf(Db)))] and then [beginScope()]: the scope is
    the container 2. *)
Definition dbInScope : World :=
  (beginScope 1 (started noReflect [singleOf Db (inl noOpts)] None)).2.

(** [startDI(module(singleOf(Repo)), {allowOverride: true})] *)
Definition overridable : World :=
  started noReflect [singleOf Repo (inl noOpts)] (Some (mkStartOptions (Some true) None)).

(** * Properties *)

(** ** The scenarios of the test suite, on the embedding *)

(** "singleOf returns the same instance; factoryOf returns new instances":
    two presenters, one service, one repository. *)
Example suite_single_and_factory :
  let w := snd (startDI noReflect [suiteModule] None initial) in
  let '(r1, w) := inject noReflect 5 Repo None w in
  let '(r2, w) := inject noReflect 5 Repo None w in
  let '(p1, w) := inject noReflect 5 Presenter None w in
  let '(p2, w) := inject noReflect 5 Presenter None w in
  r1 = Ok (VRef 0) /\ r2 = Ok (VRef 0) /\ p1 = Ok (VRef 2) /\ p2 = Ok (VRef 3) /\
  heap w = [mkObj Repo []; mkObj Service [VRef 0];
            mkObj Presenter [VRef 1]; mkObj Presenter [VRef 1]].
Proof. vm_compute. repeat split; reflexivity. Qed.

(** "async factory + injectAsync works", and the synchronous [get] of the
    same identifier. *)
Example suite_async_factory :
  (let '(r, w) := injectAsync noReflect 5 Db None connAndDb in
   r = Ok (VRef 1) /\ heap w = [mkObj Conn []; mkObj Db [VRef 0]]) /\
  fst (inject noReflect 5 Db None connAndDb) = Throw (AsyncInSyncGet "Db").
Proof. vm_compute. repeat split; reflexivity. Qed.

(** "override policy: throws by default and allows lastWins when enabled" *)
Example suite_override_policy :
  let a := module [singleOf Repo (inr (mkFactory false (FNew Service [] FReturn)))] in
  let b := module [singleOf Repo (inr (mkFactory false (FNew Presenter [] FReturn)))] in
  fst (startDI noReflect [a; b] None initial) = Throw (BeanOverrideError "Repo") /\
  (let '(r, w) := startDI noReflect [a; b]
                    (Some (mkStartOptions (Some true) (Some lastWins))) initial in
   r = Ok tt /\
   (let '(v, w) := inject noReflect 5 Repo None w in
    v = Ok (VRef 0) /\ heap w = [mkObj Presenter []])).
Proof. vm_compute. repeat split; reflexivity. Qed.

(** "override() at runtime replaces a single (with allowOverride)" *)
Example suite_override_at_runtime :
  let w := started noReflect [singleOf Repo (inl noOpts)]
             (Some (mkStartOptions (Some true) (Some lastWins))) in
  let '(v1, w) := inject noReflect 5 Repo None w in
  let '(u, w) := overrideDI noReflect Repo (VPrim "clock") None w in
  let '(v2, w) := inject noReflect 5 Repo None w in
  v1 = Ok (VRef 0) /\ u = Ok tt /\ v2 = Ok (VPrim "clock").
Proof. vm_compute. repeat split; reflexivity. Qed.

(** "scopedOf: same instance within scope, different across scopes; end()
    disposes" *)
Example suite_scoped :
  let '(s1, w) := beginScopeDI oneScoped in
  let '(s2, w) := beginScopeDI w in
  let '(a1, w) := get noReflect 5 s1 RequestCtx None w in
  let '(a2, w) := get noReflect 5 s1 RequestCtx None w in
  let '(b1, w) := get noReflect 5 s2 RequestCtx None w in
  let w1 := shutdown noReflect s1 w in
  let w2 := shutdown noReflect s2 w1 in
  a1 = Ok (VRef 0) /\ a2 = Ok (VRef 0) /\ b1 = Ok (VRef 1) /\
  trace w1 = [CalledMethod "dispose" (VRef 0)] /\
  trace w2 = [CalledMethod "dispose" (VRef 0); CalledMethod "dispose" (VRef 1)].
Proof. vm_compute. repeat split; reflexivity. Qed.

(** "fallback: unregistered class with no deps is constructed directly" *)
Example suite_fallback :
  let '(u, w) := inject noReflect 5 Unregistered None (started noReflect [] None) in
  u = Ok (VRef 0) /\ heap w = [mkObj Unregistered []].
Proof. vm_compute. repeat split; reflexivity. Qed.

(** ** The store *)

Lemma cont_update_eq c f w :
  c < length (containers w) -> cont (update c f w) c = f (cont w c).
Proof.
  intros Hc. unfold cont, update; simpl.
  destruct (lookup_lt_is_Some_2 _ _ Hc) as [x Hx].
  rewrite list_lookup_alter_eq, Hx. reflexivity.
Qed.

Lemma cont_update_ne c c' f w :
  c <> c' -> cont (update c f w) c' = cont w c'.
Proof.
  intros Hne. unfold cont, update; simpl.
  rewrite list_lookup_alter_ne by done. reflexivity.
Qed.

Lemma cont_update c f w x :
  cont (update c f w) x
  = if decide (c = x /\ c < length (containers w)) then f (cont w c) else cont w x.
Proof.
  destruct (decide (c = x)) as [->|Hne].
  - destruct (decide (x < length (containers w))) as [Hlt|Hge].
    + rewrite decide_True by done. apply cont_update_eq, Hlt.
    + rewrite decide_False by tauto. unfold cont, update; simpl.
      rewrite list_lookup_alter_eq.
      rewrite (lookup_ge_None_2 (containers w) x) by lia. reflexivity.
  - rewrite decide_False by tauto. apply cont_update_ne, Hne.
Qed.

Lemma length_update c f w : length (containers (update c f w)) = length (containers w).
Proof. unfold update; simpl. apply length_alter. Qed.

Lemma heap_update c f w : heap (update c f w) = heap w.
Proof. reflexivity. Qed.

Lemma trace_update c f w : trace (update c f w) = trace w.
Proof. reflexivity. Qed.

Lemma update_update c f g w :
  update c f (update c g w) = update c (fun x => f (g x)) w.
Proof.
  unfold update; simpl. f_equal.
  apply list_eq; intros i.
  destruct (decide (c = i)) as [->|Hne].
  - rewrite !list_lookup_alter_eq. destruct (containers w !! i); reflexivity.
  - rewrite !list_lookup_alter_ne by done. reflexivity.
Qed.

Lemma update_ext c f g w :
  (forall x, containers w !! c = Some x -> f x = g x) ->
  update c f w = update c g w.
Proof.
  intros H. unfold update. f_equal.
  apply list_eq; intros i.
  destruct (decide (c = i)) as [->|Hne].
  - rewrite !list_lookup_alter_eq.
    destruct (containers w !! i) eqn:E; simpl; [|done].
    f_equal. apply H. reflexivity.
  - rewrite !list_lookup_alter_ne by done. reflexivity.
Qed.

Lemma update_field {A} (proj : Container -> A) c f w x :
  (forall k, proj (f k) = proj k) ->
  proj (cont (update c f w) x) = proj (cont w x).
Proof.
  intros Hf. rewrite cont_update. case_decide as Hd; [|reflexivity].
  destruct Hd as [<- _]. apply Hf.
Qed.

Lemma cont_traced w evs c : cont (traced w evs) c = cont w c.
Proof. reflexivity. Qed.

Lemma cont_snoc h l k tr g x :
  cont (mkWorld h (l ++ [k]) tr g) x
  = if decide (x < length l) then default (newContainer None) (l !! x)
    else if decide (x = length l) then k else newContainer None.
Proof.
  unfold cont; simpl. case_decide as Hlt.
  - rewrite lookup_app_l by done. reflexivity.
  - case_decide as Heq.
    + subst. rewrite list_lookup_middle by done. reflexivity.
    + rewrite lookup_ge_None_2; [reflexivity|]. rewrite length_app. simpl. lia.
Qed.

Lemma cont_beyond w x : length (containers w) <= x -> cont w x = newContainer None.
Proof. intros H. unfold cont. rewrite lookup_ge_None_2 by done. reflexivity. Qed.

(** ** The registry and the chain of parents *)

Lemma getProvider_local w this i q p :
  this < length (containers w) ->
  registered w this i q = Some p ->
  getProvider w this i q = Some p.
Proof.
  intros Hlt Hreg. unfold getProvider.
  destruct (length (containers w)) as [|n] eqn:E; [lia|].
  simpl. unfold registered in Hreg. rewrite Hreg. reflexivity.
Qed.

Lemma getProvider_from_update n w c f this i q :
  (forall x, providers (f x) = providers x /\ parent (f x) = parent x) ->
  getProvider_from n (update c f w) this i q = getProvider_from n w this i q.
Proof.
  intros Hf. revert this. induction n as [|n IH]; intros this; [reflexivity|].
  simpl.
  assert (Hc : providers (cont (update c f w) this) = providers (cont w this)
               /\ parent (cont (update c f w) this) = parent (cont w this)).
  { destruct (decide (c = this)) as [->|Hne].
    - unfold cont, update; simpl. rewrite list_lookup_alter_eq.
      destruct (containers w !! this); simpl; [apply Hf | done].
    - rewrite cont_update_ne by done. done. }
  destruct Hc as [-> ->].
  destruct (providers (cont w this) !! i ≫= _); [reflexivity|].
  destruct (parent (cont w this)); [apply IH | reflexivity].
Qed.

Lemma getProvider_update w c f this i q :
  (forall x, providers (f x) = providers x /\ parent (f x) = parent x) ->
  getProvider (update c f w) this i q = getProvider w this i q.
Proof.
  intros Hf. unfold getProvider. rewrite length_update.
  apply getProvider_from_update, Hf.
Qed.

Lemma getProvider_from_ext n w w' x i q :
  (forall y, parent (cont w' y) = parent (cont w y) /\
             providers (cont w' y) = providers (cont w y)) ->
  getProvider_from n w' x i q = getProvider_from n w x i q.
Proof.
  intros Hp. revert x. induction n as [|n IH]; intros x; [reflexivity|].
  simpl. destruct (Hp x) as [-> ->].
  destruct (providers (cont w x) !! i ≫= _); [reflexivity|].
  destruct (parent (cont w x)); [apply IH | reflexivity].
Qed.

Lemma root_from_ext n w w' x :
  (forall y, parent (cont w' y) = parent (cont w y)) ->
  root_from n w' x = root_from n w x.
Proof.
  intros Hp. revert x. induction n as [|n IH]; intros x; [reflexivity|].
  simpl. rewrite Hp. destruct (parent (cont w x)); [apply IH | reflexivity].
Qed.

Lemma root_ext w w' x :
  length (containers w') = length (containers w) ->
  (forall y, parent (cont w' y) = parent (cont w y)) ->
  root w' x = root w x.
Proof. intros Hl Hp. unfold root. rewrite Hl. apply root_from_ext, Hp. Qed.

Lemma root_of_root w c : parent (cont w c) = None -> root w c = c.
Proof.
  intros Hp. unfold root. destruct (length (containers w)); simpl; [reflexivity|].
  rewrite Hp. reflexivity.
Qed.

Lemma root_from_le n w x : wfParents w -> root_from n w x <= x.
Proof.
  intros Hwf. revert x. induction n as [|n IH]; intros x; simpl; [lia|].
  destruct (parent (cont w x)) as [up|] eqn:E; [|lia].
  specialize (IH up). apply Hwf in E. lia.
Qed.

Lemma configure_policy opts c :
  lastWinsPolicy (configure opts c) = true <->
  opt_allowOverride opts = Some true /\ opt_overrideStrategy opts <> Some error.
Proof.
  unfold lastWinsPolicy, configure; simpl.
  destruct opts as [[[|]|] [[|]|]]; simpl; split; intros H;
    try discriminate; try (split; congruence); try reflexivity;
    destruct H; congruence.
Qed.

(** The registry after two registrations for one key. *)
Lemma setProvider_twice_registry rt w this p1 p2 w1 :
  this < length (containers w) ->
  id p1 = id p2 ->
  qualifier p1 = qualifier p2 ->
  setProvider rt this p1 w = (Ok tt, w1) ->
  (forall opts c, lastWinsPolicy (configure opts c) = true <->
       opt_allowOverride opts = Some true /\ opt_overrideStrategy opts <> Some error) /\
  lastWinsPolicy (configure (mkStartOptions None None) (newContainer None)) = false /\
  if lastWinsPolicy (cont w this)
  then exists w2,
      setProvider rt this p2 w1 = (Ok tt, w2) /\
      setProvider rt this p2 w = (Ok tt, w2) /\
      registered w2 this (id p2) (qualifier p2) = Some p2 /\
      getProvider w2 this (id p2) (qualifier p2) = Some p2 /\
      registrations w2 this (id p2) = registrations w1 this (id p2)
  else setProvider rt this p2 w1
       = (Throw (BeanOverrideError (keyOf rt (id p2) (qualifier p2))), w1).
Proof.
  intros Hlt Hid Hq H1.
  split; [apply configure_policy|]. split; [reflexivity|].
  unfold setProvider in H1.
  destruct (bool_decide _ && _) eqn:Hc1 in H1; [discriminate|].
  injection H1 as <-.
  assert (Hreg1 : providers (cont (update this
             (with_providers (fun ps => <[id p1 := <[qualifier p1 := p1]>
                (default ∅ (providers (cont w this) !! id p1))]> ps)) w) this) !! id p2
          = Some (<[qualifier p2 := p1]> (default ∅ (providers (cont w this) !! id p2)))).
  { rewrite cont_update_eq by done. simpl. rewrite Hid, Hq. apply lookup_insert_eq. }
  assert (Hpol : forall f, allowOverride (cont (update this (with_providers f) w) this)
                  = allowOverride (cont w this)
                /\ overrideStrategy (cont (update this (with_providers f) w) this)
                  = overrideStrategy (cont w this)).
  { intros f. rewrite cont_update_eq by done. split; reflexivity. }
  unfold lastWinsPolicy.
  destruct (allowOverride (cont w this)) eqn:Ha;
    destruct (overrideStrategy (cont w this)) eqn:Hs; simpl.
  - (* allowed, strategy error *)
    unfold setProvider. rewrite Hreg1. simpl.
    destruct (Hpol (fun ps => <[id p1 := <[qualifier p1 := p1]>
                (default ∅ (providers (cont w this) !! id p1))]> ps)) as [-> ->].
    simpl.
    rewrite lookup_insert_eq.
    rewrite bool_decide_eq_true_2 by eauto. reflexivity.
  - (* allowed, lastWins *)
    eexists. unfold setProvider at 1. rewrite Hreg1. simpl.
    destruct (Hpol (fun ps => <[id p1 := <[qualifier p1 := p1]>
                (default ∅ (providers (cont w this) !! id p1))]> ps)) as [-> ->].
    simpl. rewrite andb_false_r.
    split; [reflexivity|].
    assert (Heq : update this (with_providers (fun ps => <[id p2 := <[qualifier p2 := p2]>
                (<[qualifier p2 := p1]> (default ∅ (providers (cont w this) !! id p2)))]> ps))
              (update this (with_providers (fun ps => <[id p1 := <[qualifier p1 := p1]>
                (default ∅ (providers (cont w this) !! id p1))]> ps)) w)
            = update this (with_providers (fun ps => <[id p2 := <[qualifier p2 := p2]>
                (default ∅ (providers (cont w this) !! id p2))]> ps)) w).
    { rewrite update_update. apply update_ext. intros c _.
      unfold with_providers; simpl.
      rewrite Hid, insert_insert_eq, insert_insert_eq. reflexivity. }
    rewrite Heq.
    split.
    { unfold setProvider. rewrite Ha, Hs. simpl. rewrite andb_false_r. reflexivity. }
    assert (Hr2 : registered (update this (with_providers (fun ps => <[id p2 := <[qualifier p2 := p2]>
                (default ∅ (providers (cont w this) !! id p2))]> ps)) w) this (id p2) (qualifier p2) = Some p2).
    { unfold registered. rewrite cont_update_eq by done. simpl.
      rewrite lookup_insert_eq. simpl. apply lookup_insert_eq. }
    split; [exact Hr2|].
    split.
    { apply getProvider_local; [rewrite length_update; done | exact Hr2]. }
    unfold registrations. rewrite Hreg1. rewrite cont_update_eq by done. simpl.
    rewrite lookup_insert_eq. simpl.
    destruct (default ∅ (providers (cont w this) !! id p2) !! qualifier p2) eqn:Hl.
    + rewrite !map_size_insert_Some; eauto.
    + rewrite !map_size_insert_None; eauto.
  - unfold setProvider. rewrite Hreg1. simpl.
    destruct (Hpol (fun ps => <[id p1 := <[qualifier p1 := p1]>
                (default ∅ (providers (cont w this) !! id p1))]> ps)) as [-> ->].
    simpl.
    rewrite lookup_insert_eq.
    rewrite bool_decide_eq_true_2 by eauto. reflexivity.
  - unfold setProvider. rewrite Hreg1. simpl.
    destruct (Hpol (fun ps => <[id p1 := <[qualifier p1 := p1]>
                (default ∅ (providers (cont w this) !! id p1))]> ps)) as [-> ->].
    simpl.
    rewrite lookup_insert_eq.
    rewrite bool_decide_eq_true_2 by eauto. reflexivity.
Qed.

(** ** Disposal *)

Lemma call_swallowed ev r w :
  snd ((let! x := call ev r in let! u := await x in ret tt) w) = traced w [ev].
Proof. destruct r; reflexivity. Qed.

Lemma tryAutoDispose_loop_traced rt fns obj w :
  snd (tryAutoDispose_loop rt fns obj w)
  = traced w match List.find (fun fn => bool_decide (is_Some (methodOf rt w obj fn))) fns with
             | Some fn => [CalledMethod fn obj]
             | None => []
             end.
Proof.
  induction fns as [|fn rest IH]; simpl.
  - unfold traced. rewrite app_nil_r. destruct w; reflexivity.
  - destruct (methodOf rt w obj fn) as [m|] eqn:Hm.
    + rewrite bool_decide_eq_true_2 by eauto. apply call_swallowed.
    + rewrite bool_decide_eq_false_2 by (intros [? ?]; discriminate). exact IH.
Qed.

Lemma disposeEntry_swallowed rt d w :
  swallow (disposeEntry rt d) w = traced w (cleanupCalls rt w d).
Proof.
  unfold swallow, disposeEntry, cleanupCalls.
  destruct (close d) as [h|].
  - apply call_swallowed.
  - unfold tryAutoDispose. rewrite tryAutoDispose_loop_traced. reflexivity.
Qed.

Lemma shutdown_loop_traced rt this n w :
  n <= length (disposables (cont w this)) ->
  shutdown_loop rt this n w
  = traced w (flat_map (cleanupCalls rt w) (rev (take n (disposables (cont w this))))).
Proof.
  revert w. induction n as [|i IH]; intros w Hn.
  - simpl. unfold traced. rewrite app_nil_r. destruct w; reflexivity.
  - simpl.
    destruct (lookup_lt_is_Some_2 (disposables (cont w this)) i) as [d Hd]; [lia|].
    rewrite Hd. rewrite disposeEntry_swallowed.
    rewrite IH by (rewrite cont_traced; lia).
    rewrite cont_traced.
    rewrite (take_S_r _ _ _ Hd), rev_app_distr. simpl.
    unfold traced; simpl. rewrite <- app_assoc. reflexivity.
Qed.

(** C8: [shutdown] calls the cleanup of every entry of the disposal list
    once, the most recently created entry first: the hook of the entry when
    it has one, otherwise the first of dispose, close, destroy that the
    instance has.  This holds whatever the calls do (return, throw, reject):
    a failure stops nothing.  Afterwards the disposal list and both caches
    of the container are empty; the heap, the registry and the other
    containers are as before. *)
Theorem shutdown_reverse_order rt w this :
  this < length (containers w) ->
  let w' := shutdown rt this w in
  trace w' = trace w ++ flat_map (cleanupCalls rt w) (rev (disposables (cont w this))) /\
  disposables (cont w' this) = [] /\
  singles (cont w' this) = ∅ /\
  scopedCache (cont w' this) = ∅ /\
  providers (cont w' this) = providers (cont w this) /\
  heap w' = heap w /\
  (forall c, c <> this -> cont w' c = cont w c).
Proof.
  intros Hlt. simpl. unfold shutdown.
  rewrite shutdown_loop_traced by done.
  rewrite firstn_all.
  set (evs := flat_map _ _).
  assert (Hc : forall c, cont (traced w evs) c = cont w c) by reflexivity.
  repeat split.
  - rewrite cont_update_eq by done. reflexivity.
  - rewrite cont_update_eq by done. reflexivity.
  - rewrite cont_update_eq by done. reflexivity.
  - rewrite cont_update_eq by done. reflexivity.
  - intros c Hne. rewrite cont_update_ne by done. apply Hc.
Qed.

Lemma shutdown_reverse_order_witness :
  trace (shutdown noReflect 1 dbAndCache)
  = [CalledHook "manual:cache" (VRef 1); CalledMethod "close" (VRef 0)].
Proof.
  exact (proj1 (shutdown_reverse_order noReflect dbAndCache 1 ltac:(vm_compute; lia))).
Defined.

(** ** Resolution: one step of [get] and [getAsync] *)

Lemma get_S rt n this ident q :
  get rt (S n) this ident q = get_body rt (get rt n) (getAsync rt n) this ident q.
Proof. reflexivity. Qed.

Lemma getAsync_S rt n this ident q :
  getAsync rt (S n) this ident q = getAsync_body rt (get rt n) (getAsync rt n) this ident q.
Proof. reflexivity. Qed.

(** A key that is not cached, has a provider and is not in flight is built
    by [instantiate] with the key marked. *)
Lemma get_builds rt n this ident q w p :
  singles (cont w this) !! keyOf rt ident q = None ->
  scopedCache (cont w this) !! keyOf rt ident q = None ->
  getProvider w this ident q = Some p ->
  keyOf rt ident q ∉ resolving (cont w this) ->
  get rt (S n) this ident q w
  = match instantiate rt (get rt n) (getAsync rt n) this p
            (resolving_add this (keyOf rt ident q) w) with
    | (Ok maybe, w') =>
        if isPromise maybe then (Throw (AsyncInSyncGet (keyOf rt ident q)), w')
        else (Ok maybe,
              resolving_delete this (keyOf rt ident q)
                (cacheAndTrack this p (keyOf rt ident q) maybe w'))
    | (Throw e, w') => (Throw e, w')
    | (OutOfFuel, w') => (OutOfFuel, w')
    end.
Proof.
  intros Hs Hc Hp Hr. rewrite get_S. unfold get_body.
  rewrite Hs, Hc, Hp. rewrite decide_False by done. reflexivity.
Qed.

Lemma getAsync_builds rt n this ident q w p :
  singles (cont w this) !! keyOf rt ident q = None ->
  scopedCache (cont w this) !! keyOf rt ident q = None ->
  getProvider w this ident q = Some p ->
  keyOf rt ident q ∉ resolving (cont w this) ->
  getAsync rt (S n) this ident q w
  = match instantiate rt (get rt n) (getAsync rt n) this p
            (resolving_add this (keyOf rt ident q) w) with
    | (Ok maybe, w') =>
        match await maybe w' with
        | (Ok inst, w'') =>
            (Ok inst,
             resolving_delete this (keyOf rt ident q)
               (cacheAndTrack this p (keyOf rt ident q) inst w''))
        | r => r
        end
    | (Throw e, w') => (Throw e, w')
    | (OutOfFuel, w') => (OutOfFuel, w')
    end.
Proof.
  intros Hs Hc Hp Hr. rewrite getAsync_S. unfold getAsync_body.
  rewrite Hs, Hc, Hp. rewrite decide_False by done. reflexivity.
Qed.

Lemma get_in_flight rt n this ident q w p :
  singles (cont w this) !! keyOf rt ident q = None ->
  scopedCache (cont w this) !! keyOf rt ident q = None ->
  getProvider w this ident q = Some p ->
  keyOf rt ident q ∈ resolving (cont w this) ->
  get rt (S n) this ident q w = (Throw (CircularDependency (keyOf rt ident q)), w).
Proof.
  intros Hs Hc Hp Hr. rewrite get_S. unfold get_body.
  rewrite Hs, Hc, Hp. rewrite decide_True by done. reflexivity.
Qed.

Lemma mapM_first_throws {A B} (f : A -> M B) x xs w e w' :
  f x w = (Throw e, w') -> mapM f (x :: xs) w = (Throw e, w').
Proof. intros H. simpl. unfold bind. rewrite H. reflexivity. Qed.

(** The call of an [async] factory yields a promise whenever it returns. *)
Lemma async_factory_is_deferred rt g ga this p f w r w' :
  useValue p = VUndefined ->
  useFactory p = Some f ->
  is_async f = true ->
  instantiate rt g ga this p w = (r, w') ->
  r = OutOfFuel \/ exists v, r = Ok v /\ isPromise v = true.
Proof.
  intros Hv Hf Ha. unfold instantiate. rewrite Hv, Hf. simpl.
  unfold callFactory. rewrite Ha. unfold async.
  destruct (runFac g ga this (body f) w) as [[v|e|] w1]; intros [= <- <-].
  - right. eexists; split; [reflexivity|].
    unfold promiseResolve. destruct (isPromise v) eqn:E; [exact E | reflexivity].
  - right. eexists; split; reflexivity.
  - left. reflexivity.
Qed.

(** ** Registering twice *)

(** C5: registering P2 after P1 for the same (identifier, qualifier).  The
    registration replaces P1 exactly under the policy "override allowed and
    last wins", which [configure] sets exactly for options with
    [allowOverride: true] and a strategy that is not "error"; the default
    options do not.  Under that policy the second registration succeeds, the
    registry is the one obtained by registering P2 alone, P2 is the provider
    found for the key, the number of entries did not grow, and a [get] that
    has to build the key builds it from P2.  Under any other policy the
    second registration throws [BeanOverrideError] for the key and changes
    nothing. *)
Theorem setProvider_twice rt w this p1 p2 w1 :
  this < length (containers w) ->
  id p1 = id p2 ->
  qualifier p1 = qualifier p2 ->
  setProvider rt this p1 w = (Ok tt, w1) ->
  (forall opts c, lastWinsPolicy (configure opts c) = true <->
       opt_allowOverride opts = Some true /\ opt_overrideStrategy opts <> Some error) /\
  lastWinsPolicy (configure (mkStartOptions None None) (newContainer None)) = false /\
  if lastWinsPolicy (cont w this)
  then exists w2,
      setProvider rt this p2 w1 = (Ok tt, w2) /\
      setProvider rt this p2 w = (Ok tt, w2) /\
      registered w2 this (id p2) (qualifier p2) = Some p2 /\
      getProvider w2 this (id p2) (qualifier p2) = Some p2 /\
      registrations w2 this (id p2) = registrations w1 this (id p2) /\
      (forall n,
         singles (cont w2 this) !! keyOf rt (id p2) (qualifier p2) = None ->
         scopedCache (cont w2 this) !! keyOf rt (id p2) (qualifier p2) = None ->
         keyOf rt (id p2) (qualifier p2) ∉ resolving (cont w2 this) ->
         get rt (S n) this (id p2) (qualifier p2) w2
         = match instantiate rt (get rt n) (getAsync rt n) this p2
                   (resolving_add this (keyOf rt (id p2) (qualifier p2)) w2) with
           | (Ok maybe, w') =>
               if isPromise maybe
               then (Throw (AsyncInSyncGet (keyOf rt (id p2) (qualifier p2))), w')
               else (Ok maybe,
                     resolving_delete this (keyOf rt (id p2) (qualifier p2))
                       (cacheAndTrack this p2 (keyOf rt (id p2) (qualifier p2)) maybe w'))
           | (Throw e, w') => (Throw e, w')
           | (OutOfFuel, w') => (OutOfFuel, w')
           end)
  else setProvider rt this p2 w1
       = (Throw (BeanOverrideError (keyOf rt (id p2) (qualifier p2))), w1).
Proof.
  intros Hlt Hid Hq H1.
  destruct (setProvider_twice_registry rt w this p1 p2 w1 Hlt Hid Hq H1)
    as (Hconf & Hdef & Hreg).
  split; [exact Hconf|]. split; [exact Hdef|].
  destruct (lastWinsPolicy (cont w this)); [|exact Hreg].
  destruct Hreg as (w2 & E1 & E2 & Hr & Hp & Hn).
  exists w2. repeat (split; [assumption|]).
  intros n Hs Hc Hnot. apply get_builds; assumption.
Qed.

Lemma setProvider_twice_witness :
  exists w2,
    setProvider noReflect 1 (singleOf Repo (inr connFactory))
      (snd (setProvider noReflect 1 (singleOf Repo (inl noOpts)) lastWinsWorld))
    = (Ok tt, w2) /\
    getProvider w2 1 Repo None = Some (singleOf Repo (inr connFactory)).
Proof.
  pose proof (setProvider_twice noReflect lastWinsWorld 1
                (singleOf Repo (inl noOpts)) (singleOf Repo (inr connFactory))
                (snd (setProvider noReflect 1 (singleOf Repo (inl noOpts)) lastWinsWorld))
                ltac:(vm_compute; lia) eq_refl eq_refl eq_refl) as H.
  destruct H as (_ & _ & H).
  change (lastWinsPolicy (cont lastWinsWorld 1)) with true in H.
  destruct H as (w2 & H1 & _ & _ & H2 & _).
  exists w2. split; [exact H1 | exact H2].
Defined.

(** ** Asynchronous providers *)

(** C7: a provider whose construction yields a promise: its factory is an
    [async] function (and returns), or the construction step otherwise
    returns a promise.  The synchronous [get] throws the error that names
    the key and points to [getAsync]; [getAsync] awaits the promise: when it
    fulfils with an instance, that instance is returned, cached and tracked
    according to the kind of the provider; when it rejects, [getAsync]
    rejects with the same error. *)
Theorem get_rejects_async_provider rt n this ident q w p r w' :
  singles (cont w this) !! keyOf rt ident q = None ->
  scopedCache (cont w this) !! keyOf rt ident q = None ->
  getProvider w this ident q = Some p ->
  keyOf rt ident q ∉ resolving (cont w this) ->
  instantiate rt (get rt n) (getAsync rt n) this p
    (resolving_add this (keyOf rt ident q) w) = (r, w') ->
  (useValue p = VUndefined /\
   (exists f, useFactory p = Some f /\ is_async f = true) /\
   r <> OutOfFuel) \/
  (exists v, r = Ok v /\ isPromise v = true) ->
  exists maybe,
    r = Ok maybe /\ isPromise maybe = true /\
    fst (get rt (S n) this ident q w) = Throw (AsyncInSyncGet (keyOf rt ident q)) /\
    (forall inst, maybe = VFulfilled inst ->
       getAsync rt (S n) this ident q w
       = (Ok inst, resolving_delete this (keyOf rt ident q)
                     (cacheAndTrack this p (keyOf rt ident q) inst w'))) /\
    (forall e, maybe = VRejected e ->
       getAsync rt (S n) this ident q w = (Throw e, w')).
Proof.
  intros Hs Hc Hp Hr Hi Hdef.
  assert (Hpr : exists maybe, r = Ok maybe /\ isPromise maybe = true).
  { destruct Hdef as [(Hv & (f & Hf & Ha) & Hfuel)|H]; [|exact H].
    destruct (async_factory_is_deferred _ _ _ _ _ _ _ _ _ Hv Hf Ha Hi) as [->|H];
      [done | exact H]. }
  destruct Hpr as (maybe & -> & Hpr). exists maybe.
  split; [reflexivity|]. split; [exact Hpr|]. split; [|split].
  - rewrite (get_builds _ _ _ _ _ _ p) by done. rewrite Hi, Hpr. reflexivity.
  - intros inst ->. rewrite (getAsync_builds _ _ _ _ _ _ p) by done.
    rewrite Hi. reflexivity.
  - intros e ->. rewrite (getAsync_builds _ _ _ _ _ _ p) by done.
    rewrite Hi. reflexivity.
Qed.

Lemma get_rejects_async_provider_witness :
  fst (get noReflect 3 1 Conn None asyncConn) = Throw (AsyncInSyncGet "Conn") /\
  fst (getAsync noReflect 3 1 Conn None asyncConn) = Ok (VRef 0).
Proof.
  assert (H1 : singles (cont asyncConn 1) !! keyOf noReflect Conn None = None)
    by (vm_compute; reflexivity).
  assert (H2 : scopedCache (cont asyncConn 1) !! keyOf noReflect Conn None = None)
    by (vm_compute; reflexivity).
  assert (H3 : getProvider asyncConn 1 Conn None = Some (singleOf Conn (inr connFactory)))
    by (vm_compute; reflexivity).
  assert (H4 : keyOf noReflect Conn None ∉ resolving (cont asyncConn 1))
    by (intros H; vm_compute in H; discriminate).
  assert (H5 : instantiate noReflect (get noReflect 2) (getAsync noReflect 2) 1
                 (singleOf Conn (inr connFactory))
                 (resolving_add 1 (keyOf noReflect Conn None) asyncConn)
               = (Ok (VFulfilled (VRef 0)),
                  allocated (resolving_add 1 "Conn" asyncConn) Conn []))
    by (vm_compute; reflexivity).
  assert (H6 : useValue (singleOf Conn (inr connFactory)) = VUndefined /\
               (exists f, useFactory (singleOf Conn (inr connFactory)) = Some f /\
                          is_async f = true) /\
               Ok (VFulfilled (VRef 0)) <> OutOfFuel).
  { split; [reflexivity|]. split; [|discriminate].
    exists connFactory. split; reflexivity. }
  pose proof (get_rejects_async_provider noReflect 2 1 Conn None asyncConn
                (singleOf Conn (inr connFactory)) (Ok (VFulfilled (VRef 0)))
                (allocated (resolving_add 1 "Conn" asyncConn) Conn [])
                H1 H2 H3 H4 H5 (or_introl H6))
    as (maybe & Hm & _ & Hget & Hasync & _).
  injection Hm as <-.
  split; [exact Hget|]. rewrite (Hasync (VRef 0) eq_refl). vm_compute. reflexivity.
Defined.

(** ** Construction modes *)

(** C4 fails as stated: this provider sets a class and a factory, two of
    the three modes; resolving it raises no error, the factory is used. *)
Lemma two_modes_are_accepted :
  useClass twoModes = Some Repo /\
  useFactory twoModes = Some (mkFactory false (FNew Service [] FReturn)) /\
  registered withTwoModes 1 Repo None = Some twoModes /\
  (let '(r, w) := inject noReflect 5 Repo None withTwoModes in
   r = Ok (VRef 0) /\ heap w = [mkObj Service []]).
Proof. vm_compute. repeat split; reflexivity. Qed.

(** C4, as the code has it: a provider with none of the three modes cannot
    be built, [get] throws the invalid-provider error; a provider with
    several modes is built without error by the first mode present in the
    order value, factory, class: a value is returned as it is whatever else
    is set, and a factory is called whatever class is set. *)
Theorem instantiate_first_mode rt n this ident q w p :
  singles (cont w this) !! keyOf rt ident q = None ->
  scopedCache (cont w this) !! keyOf rt ident q = None ->
  getProvider w this ident q = Some p ->
  keyOf rt ident q ∉ resolving (cont w this) ->
  (useValue p = VUndefined -> useFactory p = None -> useClass p = None ->
   fst (get rt (S n) this ident q w)
   = Throw (InvalidProvider (keyOf rt (id p) (qualifier p)))) /\
  (useValue p <> VUndefined -> isPromise (useValue p) = false ->
   fst (get rt (S n) this ident q w) = Ok (useValue p)) /\
  (useValue p = VUndefined -> forall f, useFactory p = Some f ->
   forall g ga c, instantiate rt g ga c p = callFactory g ga c f).
Proof.
  intros Hs Hc Hp Hr. split; [|split].
  - intros Hv Hf Hcl. rewrite (get_builds _ _ _ _ _ _ p) by done.
    unfold instantiate. rewrite Hv, Hf, Hcl. reflexivity.
  - intros Hv Hnp. rewrite (get_builds _ _ _ _ _ _ p) by done.
    unfold instantiate.
    destruct (useValue p) eqn:E; try congruence; simpl in *; try discriminate;
      reflexivity.
  - intros Hv f Hf g ga c. unfold instantiate. rewrite Hv, Hf. reflexivity.
Qed.

Lemma instantiate_first_mode_witness :
  fst (get noReflect 1 1 Repo None withNoMode) = Throw (InvalidProvider "Repo").
Proof.
  refine (proj1 (instantiate_first_mode noReflect 0 1 Repo None withNoMode noMode
                   eq_refl eq_refl eq_refl _) eq_refl eq_refl eq_refl).
  intros H. vm_compute in H. discriminate.
Defined.

(** ** Cycles *)

Lemma size_difference_add (K R : gset string) k :
  k ∈ K -> k ∉ R -> size (K ∖ ({[k]} ∪ R)) < size (K ∖ R).
Proof.
  intros HK HR. apply subset_size. split.
  - intros x. rewrite !elem_of_difference, elem_of_union. tauto.
  - intros Hsub. specialize (Hsub k).
    rewrite !elem_of_difference, elem_of_union, elem_of_singleton in Hsub.
    tauto.
Qed.

Lemma size_difference_zero (K R : gset string) k :
  k ∈ K -> size (K ∖ R) = 0 -> k ∈ R.
Proof.
  intros HK Hz. apply dec_stable. intros HR.
  apply size_empty_iff in Hz.
  assert (Hin : k ∈ K ∖ R) by (apply elem_of_difference; done).
  apply Hz in Hin. by apply elem_of_empty in Hin.
Qed.

Lemma size_list_to_set_length (l : list string) :
  size (list_to_set (C := gset string) l) <= length l.
Proof.
  induction l as [|x l IH].
  - done.
  - change (list_to_set (C := gset string) (x :: l))
      with ({[x]} ∪ list_to_set (C := gset string) l).
    rewrite size_union_alt, size_singleton. simpl.
    pose proof (subseteq_size (list_to_set (C := gset string) l ∖ {[x]}) (list_to_set l)
                  ltac:(apply subseteq_difference_l; reflexivity)).
    lia.
Qed.

Lemma keysOf_elem rt rs (r : Request) : r ∈ rs -> keyOf rt r.1 r.2 ∈ keysOf rt rs.
Proof.
  intros Hr. apply elem_of_list_to_set, list_elem_of_fmap. exists r. done.
Qed.

Lemma cyclic_resolving_add rt w this rs k :
  cyclic rt w this rs -> cyclic rt (resolving_add this k w) this rs.
Proof.
  intros Hcyc r Hr. destruct (Hcyc r Hr) as (Hs & Hc & b & (p & ds & Hp & Hrest) & Hb).
  unfold resolving_add.
  assert (Hcont : singles (cont (update this (with_resolving (fun s => {[k]} ∪ s)) w) this)
                  = singles (cont w this)
                /\ scopedCache (cont (update this (with_resolving (fun s => {[k]} ∪ s)) w) this)
                  = scopedCache (cont w this)).
  { unfold cont, update; simpl. rewrite list_lookup_alter_eq.
    destruct (containers w !! this); simpl; done. }
  destruct Hcont as [-> ->].
  split; [done|]. split; [done|].
  exists b. split; [|done]. exists p, ds. split; [|done].
  rewrite getProvider_update; [done|]. intros x. split; reflexivity.
Qed.

Lemma resolving_add_elem this k w :
  this < length (containers w) ->
  resolving (cont (resolving_add this k w) this) = {[k]} ∪ resolving (cont w this).
Proof. intros H. unfold resolving_add. rewrite cont_update_eq by done. reflexivity. Qed.

Lemma cycle_detected_aux rt this rs m :
  forall w r,
    this < length (containers w) ->
    cyclic rt w this rs ->
    r ∈ rs ->
    size (keysOf rt rs ∖ resolving (cont w this)) <= m ->
    forall fuel, m < fuel ->
    exists r' w', r' ∈ rs /\
      get rt fuel this r.1 r.2 w = (Throw (CircularDependency (keyOf rt r'.1 r'.2)), w').
Proof.
  induction m as [|m IH]; intros w r Hlt Hcyc Hr Hsize fuel Hfuel.
  - destruct fuel as [|n]; [lia|].
    destruct (Hcyc r Hr) as (Hs & Hc & b & (p & ds & Hp & _) & _).
    exists r, w. split; [done|]. apply (get_in_flight _ _ _ _ _ _ p); try done.
    apply (size_difference_zero (keysOf rt rs)); [by apply keysOf_elem | lia].
  - destruct fuel as [|n]; [lia|].
    destruct (Hcyc r Hr) as (Hs & Hc & b & (p & ds & Hp & Hv & Hf & [cls Hcl] & Hd) & Hb).
    destruct (decide (keyOf rt r.1 r.2 ∈ resolving (cont w this))) as [Hin|Hnot].
    + exists r, w. split; [done|]. apply (get_in_flight _ _ _ _ _ _ p); done.
    + rewrite (get_builds _ _ _ _ _ _ p) by done.
      unfold instantiate. rewrite Hv, Hf, Hcl, Hd.
      change (negb (isUndefined VUndefined)) with false. cbv iota.
      destruct (IH (resolving_add this (keyOf rt r.1 r.2) w) (b, None)) with (fuel := n)
        as (r' & w' & Hr' & Hget).
      * unfold resolving_add. rewrite length_update. done.
      * apply cyclic_resolving_add, Hcyc.
      * done.
      * rewrite resolving_add_elem by done.
        pose proof (size_difference_add (keysOf rt rs) (resolving (cont w this))
                      (keyOf rt r.1 r.2) (keysOf_elem _ _ _ Hr) Hnot).
        lia.
      * lia.
      * exists r', w'. split; [done|].
        simpl in Hget. unfold bind at 1.
        rewrite (mapM_first_throws (fun d => get rt n this d None) b ds _ _ _ Hget).
        reflexivity.
Qed.



(** ** Invariants of a resolution

    A property [P] of the state that [new] preserves, that marking a key not
    in flight preserves, and that caching, tracking and unmarking that key
    restore, is preserved by every [get] and [getAsync] on the container
    [c], however they end. *)

Section Invariant.

Variable rt : Runtime.
Variable c : nat.
Variable P : World -> Prop.

Hypothesis P_new : forall w cls args, P w -> P (allocated w cls args).
Hypothesis P_open :
  forall w k, P w -> k ∉ resolving (cont w c) -> P (resolving_add c k w).
Hypothesis P_close :
  forall w k w2 p v,
    P w -> k ∉ resolving (cont w c) -> P w2 ->
    P (resolving_delete c k (cacheAndTrack c p k v w2)).

Section Step.

Variable g ga : nat -> Id -> option Qualifier -> M Value.
Hypothesis Hg : forall i q w r w', g c i q w = (r, w') -> P w -> P w'.
Hypothesis Hga : forall i q w r w', ga c i q w = (r, w') -> P w -> P w'.

Lemma mapM_preserves ds :
  forall w r w', mapM (fun d => g c d None) ds w = (r, w') -> P w -> P w'.
Proof.
  induction ds as [|d ds IH]; intros w r w' H HP.
  - injection H as <- <-. exact HP.
  - simpl in H. unfold bind in H.
    destruct (g c d None w) as [[v|e|] w1] eqn:E1;
      try solve [injection H as <- <-; eapply Hg; eauto].
    destruct (mapM _ ds w1) as [[vs|e|] w2] eqn:E2;
      injection H as <- <-; eapply IH; eauto.
Qed.

Lemma awaitAll_preserves ds :
  forall w r w', awaitAll (fun d => ga c d None) ds w = (r, w') -> P w -> P w'.
Proof.
  induction ds as [|d ds IH]; intros w r w' H HP.
  - injection H as <- <-. exact HP.
  - simpl in H.
    destruct (ga c d None w) as [[v|e|] w1] eqn:E1;
      try solve [injection H as <- <-; eapply Hga; eauto].
    + destruct (awaitAll _ ds w1) as [[vs|e|] w2] eqn:E2;
        injection H as <- <-; eapply IH; eauto.
    + destruct (awaitAll _ ds w1) as [[vs|e'|] w2] eqn:E2;
        injection H as <- <-; eapply IH; eauto.
Qed.

Lemma construct_preserves ctor w r w' :
  construct rt g c ctor w = (r, w') -> P w -> P w'.
Proof.
  unfold construct. intros H HP.
  destruct (design_paramtypes rt ctor) as [|d ds] eqn:Hm.
  - injection H as <- <-. apply P_new, HP.
  - unfold bind in H.
    destruct (mapM _ (d :: ds) w) as [[vs|e|] w1] eqn:E;
      try solve [injection H as <- <-; eapply mapM_preserves; eauto].
    injection H as <- <-. apply P_new. eapply mapM_preserves; eauto.
Qed.

Lemma constructAsync_preserves ctor w r w' :
  constructAsync rt ga c ctor w = (r, w') -> P w -> P w'.
Proof.
  unfold constructAsync. intros H HP.
  destruct (design_paramtypes rt ctor) as [|d ds] eqn:Hm.
  - injection H as <- <-. apply P_new, HP.
  - unfold bind in H.
    destruct (awaitAll _ (d :: ds) w) as [[vs|e|] w1] eqn:E;
      try solve [injection H as <- <-; eapply awaitAll_preserves; eauto].
    injection H as <- <-. apply P_new. eapply awaitAll_preserves; eauto.
Qed.

Lemma runFac_preserves f :
  forall w r w', runFac g ga c f w = (r, w') -> P w -> P w'.
Proof.
  induction f as [v|msg|cls args k IH|i q k IH|i q k IH]; intros w r w' H HP; simpl in H.
  - injection H as <- <-. exact HP.
  - injection H as <- <-. exact HP.
  - unfold bind in H. simpl in H. eapply IH; [exact H|]. apply P_new, HP.
  - unfold bind in H.
    destruct (g c i q w) as [[v|e|] w1] eqn:E;
      try solve [injection H as <- <-; eapply Hg; eauto].
    eapply IH; [exact H|]. eapply Hg; eauto.
  - unfold bind in H.
    destruct (ga c i q w) as [[v|e|] w1] eqn:E;
      try solve [injection H as <- <-; eapply Hga; eauto].
    eapply IH; [exact H|]. eapply Hga; eauto.
Qed.

Lemma callFactory_preserves f w r w' :
  callFactory g ga c f w = (r, w') -> P w -> P w'.
Proof.
  unfold callFactory, async. intros H HP.
  destruct (is_async f).
  - destruct (runFac g ga c (body f) w) as [[v|e|] w1] eqn:E;
      injection H as <- <-; eapply runFac_preserves; eauto.
  - eapply runFac_preserves; eauto.
Qed.

Lemma instantiate_preserves p w r w' :
  instantiate rt g ga c p w = (r, w') -> P w -> P w'.
Proof.
  unfold instantiate. intros H HP.
  destruct (negb (isUndefined (useValue p))).
  { injection H as <- <-. exact HP. }
  destruct (useFactory p) as [f|].
  { eapply callFactory_preserves; eauto. }
  destruct (useClass p) as [cls|].
  2: { injection H as <- <-. exact HP. }
  destruct (deps p) as [[|d ds]|].
  - eapply construct_preserves; eauto.
  - unfold bind in H.
    destruct (mapM _ (d :: ds) w) as [[vs|e|] w1] eqn:E;
      try solve [injection H as <- <-; eapply mapM_preserves; eauto].
    injection H as <- <-. apply P_new. eapply mapM_preserves; eauto.
  - eapply construct_preserves; eauto.
Qed.

Lemma get_body_preserves i q w r w' :
  get_body rt g ga c i q w = (r, w') -> P w -> P w'.
Proof.
  unfold get_body. intros H HP.
  destruct (singles (cont w c) !! keyOf rt i q). { injection H as <- <-. exact HP. }
  destruct (scopedCache (cont w c) !! keyOf rt i q). { injection H as <- <-. exact HP. }
  destruct (getProvider w c i q) as [p|].
  2: { destruct (is_function rt i).
       - eapply construct_preserves; eauto.
       - injection H as <- <-. exact HP. }
  destruct (decide (keyOf rt i q ∈ resolving (cont w c))) as [Hin|Hnot].
  { injection H as <- <-. exact HP. }
  destruct (instantiate rt g ga c p _) as [[v|e|] w1] eqn:E.
  - assert (HP1 : P w1) by (eapply instantiate_preserves; eauto).
    destruct (isPromise v); injection H as <- <-; [exact HP1|].
    exact (P_close w _ w1 p v HP Hnot HP1).
  - injection H as <- <-. eapply instantiate_preserves; eauto.
  - injection H as <- <-. eapply instantiate_preserves; eauto.
Qed.

Lemma getAsync_body_preserves i q w r w' :
  getAsync_body rt g ga c i q w = (r, w') -> P w -> P w'.
Proof.
  unfold getAsync_body. intros H HP.
  assert (Haw : forall v w0 r0 w0', await v w0 = (r0, w0') -> w0' = w0).
  { intros v w0 r0 w0'. destruct v; simpl; unfold ret, throw; congruence. }
  destruct (singles (cont w c) !! keyOf rt i q).
  { apply Haw in H. subst. exact HP. }
  destruct (scopedCache (cont w c) !! keyOf rt i q).
  { apply Haw in H. subst. exact HP. }
  destruct (getProvider w c i q) as [p|].
  2: { destruct (is_function rt i).
       - eapply constructAsync_preserves; eauto.
       - injection H as <- <-. exact HP. }
  destruct (decide (keyOf rt i q ∈ resolving (cont w c))) as [Hin|Hnot].
  { injection H as <- <-. exact HP. }
  destruct (instantiate rt g ga c p _) as [[v|e|] w1] eqn:E.
  - assert (HP1 : P w1) by (eapply instantiate_preserves; eauto).
    destruct (await v w1) as [[inst|e|] w2] eqn:Ea;
      pose proof (Haw _ _ _ _ Ea); subst; injection H as <- <-; try exact HP1.
    exact (P_close w _ w1 p inst HP Hnot HP1).
  - injection H as <- <-. eapply instantiate_preserves; eauto.
  - injection H as <- <-. eapply instantiate_preserves; eauto.
Qed.

End Step.

Theorem resolution_preserves fuel :
  (forall i q w r w', get rt fuel c i q w = (r, w') -> P w -> P w') /\
  (forall i q w r w', getAsync rt fuel c i q w = (r, w') -> P w -> P w').
Proof.
  induction fuel as [|n [IHg IHa]].
  - split; intros i q w r w' H HP; injection H as <- <-; exact HP.
  - split; intros i q w r w' H HP.
    + rewrite get_S in H.
      exact (get_body_preserves _ _ IHg IHa _ _ _ _ _ H HP).
    + rewrite getAsync_S in H.
      exact (getAsync_body_preserves _ _ IHg IHa _ _ _ _ _ H HP).
Qed.

End Invariant.

(** ** What a resolution leaves alone *)

Lemma stable_refl c w : stable c w w.
Proof. unfold stable. repeat split; done. Qed.

Lemma stable_root c w0 w x : stable c w0 w -> root w x = root w0 x.
Proof.
  intros (Hl & _ & _ & _ & Hp & _). apply root_ext; [done|].
  intros y. apply Hp.
Qed.

Lemma stable_getProvider c w0 w x i q :
  stable c w0 w -> getProvider w x i q = getProvider w0 x i q.
Proof.
  intros (Hl & _ & _ & _ & Hp & _). unfold getProvider. rewrite Hl.
  apply getProvider_from_ext. intros y. destruct (Hp y) as (? & ? & _). done.
Qed.

Lemma stable_new c w0 w cls args : stable c w0 w -> stable c w0 (allocated w cls args).
Proof.
  intros (Hl & Hh & Ht & Hc & Hp & Hx & Hs). unfold stable, allocated; simpl.
  split; [done|]. split; [rewrite length_app; simpl; lia|].
  repeat split; try done; try apply Hp; try (apply Hx; done).
Qed.

(** An update of [c] that keeps the fields that no resolution touches. *)
Lemma stable_update_own c w0 w f :
  (forall k, parent (f k) = parent k /\ providers (f k) = providers k /\
             allowOverride (f k) = allowOverride k /\
             overrideStrategy (f k) = overrideStrategy k /\
             singles (f k) = singles k) ->
  stable c w0 w -> stable c w0 (update c f w).
Proof.
  intros Hf (Hl & Hh & Ht & Hc & Hp & Hx & Hs). unfold stable.
  rewrite length_update.
  split; [done|]. split; [done|]. split; [done|]. split; [done|].
  split; [|split].
  - intros x. rewrite cont_update. case_decide as Hd; [|apply Hp].
    destruct Hd as [<- _]. destruct (Hf (cont w c)) as (-> & -> & -> & -> & _).
    apply Hp.
  - intros x Hne. rewrite cont_update. rewrite decide_False by (intros [? _]; done).
    apply Hx, Hne.
  - intros x Hne. rewrite cont_update. case_decide as Hd; [|apply Hs, Hne].
    destruct Hd as [<- _]. destruct (Hf (cont w c)) as (_ & _ & _ & _ & ->).
    apply Hs, Hne.
Qed.

(** An update of the singleton cache of the root of [c]. *)
Lemma stable_update_root c w0 w f :
  stable c w0 w -> stable c w0 (update (root w c) (with_singles f) w).
Proof.
  intros Hst. rewrite (stable_root _ _ _ _ Hst).
  destruct Hst as (Hl & Hh & Ht & Hc & Hp & Hx & Hs). unfold stable.
  rewrite length_update.
  split; [done|]. split; [done|]. split; [done|]. split; [done|].
  split; [|split].
  - intros x. rewrite cont_update. case_decide as Hd; [|apply Hp].
    destruct Hd as [<- _]. apply Hp.
  - intros x Hne. rewrite cont_update. case_decide as Hd; [|apply Hx, Hne].
    destruct Hd as [<- _]. apply Hx, Hne.
  - intros x Hne. rewrite cont_update. rewrite decide_False by (intros [? _]; done).
    apply Hs, Hne.
Qed.

Lemma stable_cacheAndTrack c w0 w p k v :
  stable c w0 w -> stable c w0 (cacheAndTrack c p k v w).
Proof.
  intros Hst. unfold cacheAndTrack.
  assert (H1 : stable c w0
            (if decide (kind p = single)
             then update (root w c) (with_singles (fun m => <[k := v]> m)) w else w)).
  { case_decide; [apply stable_update_root, Hst | exact Hst]. }
  set (w1 := if decide (kind p = single) then _ else w) in *.
  assert (H2 : stable c w0
            (if decide (kind p = scoped)
             then update c (with_scopedCache (fun m => <[k := v]> m)) w1 else w1)).
  { case_decide; [|exact H1]. apply stable_update_own; [|exact H1].
    intros x. repeat split. }
  set (w2 := if decide (kind p = scoped) then _ else w1) in *.
  case_decide; [|exact H2]. apply stable_update_own; [|exact H2].
  intros x. repeat split.
Qed.

(** A resolution on [c] is [stable]. *)
Theorem resolution_stable rt c fuel w0 :
  (forall i q w r w', get rt fuel c i q w = (r, w') -> stable c w0 w -> stable c w0 w') /\
  (forall i q w r w', getAsync rt fuel c i q w = (r, w') -> stable c w0 w -> stable c w0 w').
Proof.
  apply resolution_preserves.
  - intros w cls args. apply stable_new.
  - intros w k Hst _. apply stable_update_own; [|exact Hst]. intros x. repeat split.
  - intros w k w2 p v _ _ Hst. apply stable_update_own.
    + intros x. repeat split.
    + apply stable_cacheAndTrack, Hst.
Qed.

Lemma get_stable rt c fuel i q w r w' :
  get rt fuel c i q w = (r, w') -> stable c w w'.
Proof.
  intros H. eapply (proj1 (resolution_stable rt c fuel w)); [exact H|]. apply stable_refl.
Qed.

(** ** The fields after [cacheAndTrack] *)

Lemma cacheAndTrack_length c p k v w :
  length (containers (cacheAndTrack c p k v w)) = length (containers w).
Proof. unfold cacheAndTrack. repeat case_decide; rewrite ?length_update; done. Qed.

Lemma cacheAndTrack_heap c p k v w : heap (cacheAndTrack c p k v w) = heap w.
Proof. unfold cacheAndTrack. repeat case_decide; reflexivity. Qed.

Lemma cacheAndTrack_resolving c p k v w x :
  resolving (cont (cacheAndTrack c p k v w) x) = resolving (cont w x).
Proof.
  unfold cacheAndTrack.
  repeat case_decide; rewrite ?(update_field resolving) by done; reflexivity.
Qed.

Lemma cacheAndTrack_singles_other c p k v w x k' :
  k' <> k ->
  singles (cont (cacheAndTrack c p k v w) x) !! k' = singles (cont w x) !! k'.
Proof.
  intros Hne. unfold cacheAndTrack.
  assert (Hs : forall w0 y, singles (cont (update y
                 (with_singles (fun m => <[k := v]> m)) w0) x) !! k'
               = singles (cont w0 x) !! k').
  { intros w0 y. rewrite cont_update. case_decide as Hd; [|reflexivity].
    destruct Hd as [<- _]. simpl. apply lookup_insert_ne. done. }
  repeat case_decide; rewrite ?(update_field singles) by done; rewrite ?Hs; reflexivity.
Qed.

Lemma cacheAndTrack_singles_kind c p k v w x :
  kind p <> single ->
  singles (cont (cacheAndTrack c p k v w) x) = singles (cont w x).
Proof.
  intros Hk. unfold cacheAndTrack. rewrite (decide_False (P := kind p = single)) by done.
  repeat case_decide; rewrite ?(update_field singles) by done; reflexivity.
Qed.

Lemma cacheAndTrack_scoped c p k v w :
  kind p = scoped ->
  c < length (containers w) ->
  scopedCache (cont (cacheAndTrack c p k v w) c) !! k = Some v.
Proof.
  intros Hk Hlt. unfold cacheAndTrack. rewrite Hk.
  rewrite (decide_False (P := scoped = single)) by done.
  rewrite (decide_True (P := scoped = scoped)) by done.
  rewrite (decide_True (P := scoped <> factory)) by done.
  rewrite (update_field scopedCache) by done.
  rewrite cont_update_eq by done. simpl. apply lookup_insert_eq.
Qed.

Lemma cacheAndTrack_single c p k v w :
  kind p = single ->
  root w c = c ->
  c < length (containers w) ->
  singles (cont (cacheAndTrack c p k v w) c) !! k = Some v.
Proof.
  intros Hk Hroot Hlt. unfold cacheAndTrack. rewrite Hk, Hroot.
  rewrite (decide_True (P := single = single)) by done.
  rewrite (decide_False (P := single = scoped)) by done.
  rewrite (decide_True (P := single <> factory)) by done.
  rewrite (update_field singles) by done.
  rewrite cont_update_eq by done. simpl. apply lookup_insert_eq.
Qed.

(** While a key is in flight in [c], no resolution on [c] puts it into the
    singleton cache of [c]. *)
Lemma in_flight_not_cached rt c k0 fuel :
  let P w := c < length (containers w) /\ k0 ∈ resolving (cont w c) /\
             singles (cont w c) !! k0 = None in
  (forall i q w r w', get rt fuel c i q w = (r, w') -> P w -> P w') /\
  (forall i q w r w', getAsync rt fuel c i q w = (r, w') -> P w -> P w').
Proof.
  intros P. apply resolution_preserves; unfold P.
  - intros w cls args H. exact H.
  - intros w k (Hlt & Hin & Hs) _. unfold resolving_add.
    rewrite length_update, (update_field singles) by done.
    rewrite cont_update_eq by done. simpl.
    split; [done|]. split; [|done]. apply elem_of_union. right. exact Hin.
  - intros w k w2 p v (_ & Hin & _) Hnot (Hlt & Hin2 & Hs2).
    assert (Hne : k0 <> k) by (intros ->; done).
    unfold resolving_delete.
    rewrite length_update, cacheAndTrack_length, (update_field singles) by done.
    rewrite cont_update_eq by (rewrite cacheAndTrack_length; done). simpl.
    rewrite cacheAndTrack_resolving, cacheAndTrack_singles_other by done.
    split; [done|]. split; [|done].
    apply elem_of_difference. split; [done|].
    rewrite elem_of_singleton. done.
Qed.

(** ** What a resolution that returns has done

    A relation [R] between the state before and the state after that is
    reflexive and transitive, that [new] satisfies, and that holds around a
    build (mark, build, cache and track, unmark) when it holds for the build,
    holds for every [get] and [getAsync] on [c] that returns a value. *)

Section Returning.

Variable rt : Runtime.
Variable c : nat.
Variable R : World -> World -> Prop.

Hypothesis R_refl : forall w, R w w.
Hypothesis R_trans : forall w1 w2 w3, R w1 w2 -> R w2 w3 -> R w1 w3.
Hypothesis R_new : forall w cls args, R w (allocated w cls args).
Hypothesis R_build :
  forall w k w2 p v,
    k ∉ resolving (cont w c) ->
    R (resolving_add c k w) w2 ->
    R w (resolving_delete c k (cacheAndTrack c p k v w2)).

Section Step.

Variable g ga : nat -> Id -> option Qualifier -> M Value.
Hypothesis Hg : forall i q w v w', g c i q w = (Ok v, w') -> R w w'.
Hypothesis Hga : forall i q w v w', ga c i q w = (Ok v, w') -> R w w'.

Lemma mapM_returns ds :
  forall w vs w', mapM (fun d => g c d None) ds w = (Ok vs, w') -> R w w'.
Proof.
  induction ds as [|d ds IH]; intros w vs w' H.
  - injection H as <- <-. apply R_refl.
  - simpl in H. unfold bind in H.
    destruct (g c d None w) as [[v|e|] w1] eqn:E1; try discriminate.
    destruct (mapM _ ds w1) as [[vs'|e|] w2] eqn:E2; try discriminate.
    injection H as <- <-. eapply R_trans; [eapply Hg, E1 | eapply IH, E2].
Qed.

Lemma awaitAll_returns ds :
  forall w vs w', awaitAll (fun d => ga c d None) ds w = (Ok vs, w') -> R w w'.
Proof.
  induction ds as [|d ds IH]; intros w vs w' H.
  - injection H as <- <-. apply R_refl.
  - simpl in H.
    destruct (ga c d None w) as [[v|e|] w1] eqn:E1; try discriminate.
    + destruct (awaitAll _ ds w1) as [[vs'|e|] w2] eqn:E2; try discriminate.
      injection H as <- <-. eapply R_trans; [eapply Hga, E1 | eapply IH, E2].
    + destruct (awaitAll _ ds w1) as [[vs'|e'|] w2] eqn:E2; discriminate.
Qed.

Lemma construct_returns ctor w v w' :
  construct rt g c ctor w = (Ok v, w') -> R w w'.
Proof.
  unfold construct. intros H.
  destruct (design_paramtypes rt ctor) as [|d ds] eqn:Hm.
  - injection H as <- <-. apply R_new.
  - unfold bind in H.
    destruct (mapM _ (d :: ds) w) as [[vs|e|] w1] eqn:E; try discriminate.
    injection H as <- <-. eapply R_trans; [eapply mapM_returns, E | apply R_new].
Qed.

Lemma constructAsync_returns ctor w v w' :
  constructAsync rt ga c ctor w = (Ok v, w') -> R w w'.
Proof.
  unfold constructAsync. intros H.
  destruct (design_paramtypes rt ctor) as [|d ds] eqn:Hm.
  - injection H as <- <-. apply R_new.
  - unfold bind in H.
    destruct (awaitAll _ (d :: ds) w) as [[vs|e|] w1] eqn:E; try discriminate.
    injection H as <- <-. eapply R_trans; [eapply awaitAll_returns, E | apply R_new].
Qed.

Lemma runFac_returns f :
  forall w v w', runFac g ga c f w = (Ok v, w') -> R w w'.
Proof.
  induction f as [v0|msg|cls args k IH|i q k IH|i q k IH]; intros w v w' H; simpl in H.
  - injection H as <- <-. apply R_refl.
  - discriminate.
  - unfold bind in H. simpl in H.
    eapply R_trans; [apply (R_new w cls args) | eapply IH, H].
  - unfold bind in H.
    destruct (g c i q w) as [[v1|e|] w1] eqn:E; try discriminate.
    eapply R_trans; [eapply Hg, E | eapply IH, H].
  - unfold bind in H.
    destruct (ga c i q w) as [[v1|e|] w1] eqn:E; try discriminate.
    eapply R_trans; [eapply Hga, E | eapply IH, H].
Qed.

(** An [async] factory also returns when its body throws: the value is then
    a rejected promise. *)
Lemma callFactory_returns f w v w' :
  callFactory g ga c f w = (Ok v, w') ->
  (forall e, v <> VRejected e) ->
  R w w'.
Proof.
  unfold callFactory, async. intros H Hv.
  destruct (is_async f).
  - destruct (runFac g ga c (body f) w) as [[v0|e|] w1] eqn:E; try discriminate.
    + injection H as <- <-. eapply runFac_returns, E.
    + injection H as <- <-. exfalso. eapply Hv. reflexivity.
  - eapply runFac_returns, H.
Qed.

Lemma instantiate_returns p w v w' :
  instantiate rt g ga c p w = (Ok v, w') ->
  (forall e, v <> VRejected e) ->
  R w w'.
Proof.
  unfold instantiate. intros H Hv.
  destruct (negb (isUndefined (useValue p))).
  { injection H as <- <-. apply R_refl. }
  destruct (useFactory p) as [f|].
  { eapply callFactory_returns; eauto. }
  destruct (useClass p) as [cls|]; [|discriminate].
  destruct (deps p) as [[|d ds]|].
  - eapply construct_returns, H.
  - unfold bind in H.
    destruct (mapM _ (d :: ds) w) as [[vs|e|] w1] eqn:E; try discriminate.
    injection H as <- <-. eapply R_trans; [eapply mapM_returns, E | apply R_new].
  - eapply construct_returns, H.
Qed.

Lemma get_body_returns i q w v w' :
  get_body rt g ga c i q w = (Ok v, w') -> R w w'.
Proof.
  unfold get_body. intros H.
  destruct (singles (cont w c) !! keyOf rt i q). { injection H as <- <-. apply R_refl. }
  destruct (scopedCache (cont w c) !! keyOf rt i q). { injection H as <- <-. apply R_refl. }
  destruct (getProvider w c i q) as [p|].
  2: { destruct (is_function rt i); [|discriminate]. eapply construct_returns, H. }
  destruct (decide (keyOf rt i q ∈ resolving (cont w c))) as [Hin|Hnot]; [discriminate|].
  destruct (instantiate rt g ga c p _) as [[maybe|e|] w1] eqn:E; try discriminate.
  destruct (isPromise maybe) eqn:Hpr; [discriminate|].
  injection H as <- <-. apply R_build; [exact Hnot|].
  eapply instantiate_returns; [exact E|]. intros e ->. discriminate.
Qed.

Lemma getAsync_body_returns i q w v w' :
  getAsync_body rt g ga c i q w = (Ok v, w') -> R w w'.
Proof.
  unfold getAsync_body. intros H.
  assert (Haw : forall x w0 r0 w0', await x w0 = (r0, w0') -> w0' = w0).
  { intros x w0 r0 w0'. destruct x; simpl; unfold ret, throw; congruence. }
  destruct (singles (cont w c) !! keyOf rt i q).
  { apply Haw in H. subst. apply R_refl. }
  destruct (scopedCache (cont w c) !! keyOf rt i q).
  { apply Haw in H. subst. apply R_refl. }
  destruct (getProvider w c i q) as [p|].
  2: { destruct (is_function rt i); [|discriminate]. eapply constructAsync_returns, H. }
  destruct (decide (keyOf rt i q ∈ resolving (cont w c))) as [Hin|Hnot]; [discriminate|].
  destruct (instantiate rt g ga c p _) as [[maybe|e|] w1] eqn:E; try discriminate.
  destruct (await maybe w1) as [[inst|e|] w2] eqn:Ea; try discriminate.
  pose proof (Haw _ _ _ _ Ea). subst. injection H as <- <-.
  apply R_build; [exact Hnot|].
  eapply instantiate_returns; [exact E|]. intros e ->. discriminate.
Qed.

End Step.

Theorem resolution_returns fuel :
  (forall i q w v w', get rt fuel c i q w = (Ok v, w') -> R w w') /\
  (forall i q w v w', getAsync rt fuel c i q w = (Ok v, w') -> R w w').
Proof.
  induction fuel as [|n [IHg IHa]].
  - split; intros i q w v w' H; discriminate.
  - split; intros i q w v w' H.
    + rewrite get_S in H. exact (get_body_returns _ _ IHg IHa _ _ _ _ _ H).
    + rewrite getAsync_S in H. exact (getAsync_body_returns _ _ IHg IHa _ _ _ _ _ H).
Qed.

End Returning.

(** A [get] or [getAsync] that returns an instance leaves the in-flight set
    of its container as it found it: every key it marked is unmarked. *)
Lemma returning_unmarks rt c fuel :
  (forall i q w v w', get rt fuel c i q w = (Ok v, w') ->
     resolving (cont w' c) = resolving (cont w c)) /\
  (forall i q w v w', getAsync rt fuel c i q w = (Ok v, w') ->
     resolving (cont w' c) = resolving (cont w c)).
Proof.
  pose (R := fun w w' : World =>
               length (containers w') = length (containers w) /\
               resolving (cont w' c) = resolving (cont w c)).
  assert (HR : (forall i q w v w', get rt fuel c i q w = (Ok v, w') -> R w w') /\
               (forall i q w v w', getAsync rt fuel c i q w = (Ok v, w') -> R w w')).
  { apply resolution_returns; unfold R.
    - intros w. split; reflexivity.
    - intros w1 w2 w3 [L1 E1] [L2 E2]. split; congruence.
    - intros w cls args. split; reflexivity.
    - intros w k w2 p v Hnot [L E]. unfold resolving_delete, resolving_add in *.
      rewrite length_update in *. rewrite cacheAndTrack_length.
      split; [exact L|].
      rewrite cont_update. rewrite cont_update in E.
      rewrite cacheAndTrack_length.
      case_decide as H1; case_decide as H2; simpl in *;
        rewrite cacheAndTrack_resolving.
      + rewrite E.
        apply set_eq. intros x.
        rewrite elem_of_difference, elem_of_union, elem_of_singleton.
        split; [tauto|]. intros Hx. split; [tauto|]. intros ->. done.
      + exfalso. apply H2. split; [done|]. lia.
      + exfalso. apply H1. split; [done|]. lia.
      + exact E. }
  destruct HR as [Hg Ha]. split; intros i q w v w' H.
  - apply (Hg _ _ _ _ _ H).
  - apply (Ha _ _ _ _ _ H).
Qed.

(** ** Fallback construction *)




(** ** The in-flight mark after an exception *)

(** C3 (the code departs from it): [Conn] has an [async] factory.
    [inject(Conn)] throws the error that says to use [getAsync]; the key is
    still in the in-flight set afterwards, and [injectAsync(Conn)], which
    succeeds on the state before, now fails with a circular dependency; so
    does a second [inject(Conn)]. *)
Theorem in_flight_mark_survives_throw :
  let '(r1, w1) := inject noReflect 5 Conn None asyncConn in
  r1 = Throw (AsyncInSyncGet "Conn") /\
  "Conn" ∈ resolving (cont w1 (_container w1)) /\
  fst (injectAsync noReflect 5 Conn None w1) = Throw (CircularDependency "Conn") /\
  fst (inject noReflect 5 Conn None w1) = Throw (CircularDependency "Conn") /\
  fst (injectAsync noReflect 5 Conn None asyncConn) = Ok (VRef 0).
Proof.
  vm_compute. repeat split; try reflexivity.
Qed.

(** ** Keys are strings *)

(** C2 (the code departs from it): [Svc] and [Svc'] are two constructors
    with the same [name].  Both are registered, each under its own identity,
    but the caches and the in-flight set are indexed by [keyOf], the string
    "Svc" for both.  After [inject(Svc)], [inject(Svc')] returns the
    instance of [Svc]; and when [Svc] depends on [Svc'], resolving the
    dependency is reported as a cycle. *)
Theorem same_name_collides :
  Svc <> Svc' /\
  registered twoSvc 1 Svc None = Some (singleOf Svc (inl noOpts)) /\
  registered twoSvc 1 Svc' None = Some (singleOf Svc' (inl noOpts)) /\
  (let '(r1, w1) := inject noReflect 5 Svc None twoSvc in
   let '(r2, w2) := inject noReflect 5 Svc' None w1 in
   r1 = Ok (VRef 0) /\ r2 = Ok (VRef 0) /\ heap w2 = [mkObj Svc []]) /\
  fst (inject noReflect 5 Svc None svcNeedsSvc') = Throw (CircularDependency "Svc").
Proof.
  split; [discriminate|]. vm_compute. repeat split; reflexivity.
Qed.

(** ** The singleton cache *)

(** In a container without parent a [single] identifier resolves to one
    instance: once a [get] has returned it, every later [get] returns it
    again and changes nothing. *)
Lemma single_get_twice_at_root rt c X q p n v w w1 m :
  c < length (containers w) ->
  parent (cont w c) = None ->
  getProvider w c X q = Some p ->
  kind p = single ->
  get rt n c X q w = (Ok v, w1) ->
  get rt (S m) c X q w1 = (Ok v, w1).
Proof.
  intros Hlt Hroot Hp Hk Hget.
  destruct n as [|n]; [discriminate|].
  rewrite get_S in Hget. unfold get_body in Hget.
  destruct (singles (cont w c) !! keyOf rt X q) as [v0|] eqn:Hs.
  { injection Hget as <- <-. rewrite get_S. unfold get_body. rewrite Hs. reflexivity. }
  destruct (scopedCache (cont w c) !! keyOf rt X q) as [v0|] eqn:Hc.
  { injection Hget as <- <-. rewrite get_S. unfold get_body. rewrite Hs, Hc. reflexivity. }
  rewrite Hp in Hget.
  destruct (decide (keyOf rt X q ∈ resolving (cont w c))) as [Hin|Hnot]; [discriminate|].
  destruct (instantiate rt _ _ c p _) as [[maybe|e|] w'] eqn:Hi; try discriminate.
  destruct (isPromise maybe); [discriminate|].
  injection Hget as <- <-.
  assert (Hst : stable c w w').
  { destruct (resolution_stable rt c n w) as [Hg Hga].
    refine (instantiate_preserves rt c _ _ _ _ Hg Hga p _ _ _ Hi _).
    - intros w0 cls args. apply stable_new.
    - apply stable_update_own; [|apply stable_refl]. intros x. repeat split. }
  assert (Hlt' : c < length (containers w')).
  { destruct Hst as (-> & _). exact Hlt. }
  assert (Hroot' : root w' c = c).
  { apply root_of_root. destruct Hst as (_ & _ & _ & _ & Hpar & _).
    destruct (Hpar c) as (-> & _). exact Hroot. }
  rewrite get_S. unfold get_body. unfold resolving_delete.
  rewrite (update_field singles) by done.
  rewrite cacheAndTrack_single by done. reflexivity.
Qed.

(** C1 (the code departs from it): [Repo] is registered [single]; a scope is
    begun and asked three times for [Repo].  [get] looks into the singleton
    cache of the scope itself (line 241), which stays empty, while
    [cacheAndTrack] writes into the cache of the root (line 351): every call
    runs the constructor again and returns a new object, and the root then
    returns the last one. *)
Theorem single_rebuilt_in_scope :
  let '(s, w1) := beginScopeDI oneSingle in
  let '(r1, w2) := get noReflect 5 s Repo None w1 in
  let '(r2, w3) := get noReflect 5 s Repo None w2 in
  let '(r3, w4) := get noReflect 5 s Repo None w3 in
  let '(r4, w5) := inject noReflect 5 Repo None w4 in
  r1 = Ok (VRef 0) /\ r2 = Ok (VRef 1) /\ r3 = Ok (VRef 2) /\ r4 = Ok (VRef 2) /\
  heap w5 = [mkObj Repo []; mkObj Repo []; mkObj Repo []] /\
  singles (cont w5 s) = ∅.
Proof. vm_compute. repeat split; reflexivity. Qed.

(** ** Scopes *)

(** Within one container a [scoped] identifier resolves to one instance. *)
Lemma scoped_get_twice rt c X q p n v w w1 m :
  c < length (containers w) ->
  getProvider w c X q = Some p ->
  kind p = scoped ->
  get rt n c X q w = (Ok v, w1) ->
  get rt (S m) c X q w1 = (Ok v, w1).
Proof.
  intros Hlt Hp Hk Hget.
  destruct n as [|n]; [discriminate|].
  rewrite get_S in Hget. unfold get_body in Hget.
  destruct (singles (cont w c) !! keyOf rt X q) as [v0|] eqn:Hs.
  { injection Hget as <- <-. rewrite get_S. unfold get_body. rewrite Hs. reflexivity. }
  destruct (scopedCache (cont w c) !! keyOf rt X q) as [v0|] eqn:Hc.
  { injection Hget as <- <-. rewrite get_S. unfold get_body. rewrite Hs, Hc. reflexivity. }
  rewrite Hp in Hget.
  destruct (decide (keyOf rt X q ∈ resolving (cont w c))) as [Hin|Hnot]; [discriminate|].
  destruct (instantiate rt _ _ c p _) as [[maybe|e|] w'] eqn:Hi; try discriminate.
  destruct (isPromise maybe); [discriminate|].
  injection Hget as <- <-.
  assert (HP : c < length (containers w') /\ keyOf rt X q ∈ resolving (cont w' c) /\
               singles (cont w' c) !! keyOf rt X q = None).
  { destruct (in_flight_not_cached rt c (keyOf rt X q) n) as [Hg Hga].
    refine (instantiate_preserves rt c _ _ _ _ Hg Hga p _ _ _ Hi _).
    - intros w0 cls args H. exact H.
    - unfold resolving_add. rewrite length_update, (update_field singles) by done.
      rewrite cont_update_eq by done. simpl.
      split; [done|]. split; [|done]. apply elem_of_union. left.
      apply elem_of_singleton. reflexivity. }
  destruct HP as (Hlt' & _ & Hs').
  rewrite get_S. unfold get_body. unfold resolving_delete.
  rewrite (update_field singles), (update_field scopedCache) by done.
  rewrite cacheAndTrack_singles_kind by (rewrite Hk; done).
  rewrite Hs'. rewrite cacheAndTrack_scoped by done. reflexivity.
Qed.

Lemma beginScope_eq c w :
  beginScope c w
  = (length (containers w),
     mkWorld (heap w)
       (containers w ++
          [configure (mkStartOptions (Some (allowOverride (cont w c)))
                                     (Some (overrideStrategy (cont w c))))
                     (newContainer (Some c))])
       (trace w) (_container w)).
Proof. reflexivity. Qed.

(** The scope that [beginScope] returns is new and empty, chained to the
    container it was begun from, with the policy of that container; the
    containers that were there are untouched. *)
Lemma beginScope_fresh c w :
  let s := (beginScope c w).1 in
  let w' := (beginScope c w).2 in
  s = length (containers w) /\
  length (containers w') = S (length (containers w)) /\
  freshScope (cont w' s) c /\
  allowOverride (cont w' s) = allowOverride (cont w c) /\
  overrideStrategy (cont w' s) = overrideStrategy (cont w c) /\
  heap w' = heap w /\
  (forall x, x <> s -> cont w' x = cont w x).
Proof.
  rewrite beginScope_eq. simpl.
  split; [reflexivity|]. split; [rewrite length_app; simpl; lia|].
  rewrite cont_snoc. rewrite decide_False by lia. rewrite decide_True by done.
  split; [repeat split|]. split; [reflexivity|]. split; [reflexivity|].
  split; [reflexivity|].
  intros x Hne. rewrite cont_snoc. case_decide as Hlt; [reflexivity|].
  rewrite decide_False by done. symmetry. apply cont_beyond. lia.
Qed.

Lemma beginScope_wfParents c w :
  c < length (containers w) -> wfParents w -> wfParents (beginScope c w).2.
Proof.
  intros Hc Hwf x up.
  destruct (beginScope_fresh c w) as (Hs & _ & Hfr & _ & _ & _ & Hother).
  destruct (decide (x = (beginScope c w).1)) as [->|Hne].
  - destruct Hfr as (_ & _ & _ & _ & _ & ->). intros [= <-]. rewrite Hs. exact Hc.
  - rewrite Hother by done. apply Hwf.
Qed.

(** The address of a newly constructed instance: beyond the heap before,
    within the heap after. *)
Lemma class_instance_address rt n c p w v w' :
  constructsClass p ->
  instantiate rt (get rt n) (getAsync rt n) c p w = (Ok v, w') ->
  exists a, v = VRef a /\ length (heap w) <= a < length (heap w').
Proof.
  intros (Hv & Hf & [cls Hcl]). unfold instantiate. rewrite Hv, Hf, Hcl.
  change (negb (isUndefined VUndefined)) with false. cbv iota.
  assert (Hmap : forall ds r w1,
            mapM (fun d => get rt n c d None) ds w = (r, w1) ->
            length (heap w) <= length (heap w1)).
  { intros ds r w1 Hm.
    refine (mapM_preserves c (fun x => length (heap w) <= length (heap x))
              (get rt n) _ ds w r w1 Hm _); [|lia].
    intros i q w0 r0 w0' Hg Hle. apply get_stable in Hg.
    destruct Hg as (_ & Hh & _). lia. }
  assert (Hnew : forall ds cls0 r w1,
            (let! args := mapM (fun d => get rt n c d None) ds in new cls0 args) w
            = (Ok r, w1) ->
            exists a, r = VRef a /\ length (heap w) <= a < length (heap w1)).
  { intros ds cls0 r w1. unfold bind.
    destruct (mapM _ ds w) as [[vs|e|] w0] eqn:E; try discriminate.
    unfold new. intros [= <- <-]. eexists; split; [reflexivity|].
    simpl. rewrite length_app. simpl. specialize (Hmap _ _ _ E). lia. }
  assert (Hcon : forall r w1, construct rt (get rt n) c cls w = (Ok r, w1) ->
            exists a, r = VRef a /\ length (heap w) <= a < length (heap w1)).
  { intros r w1. unfold construct.
    destruct (design_paramtypes rt cls) as [|d ds] eqn:Hm.
    - unfold new. intros [= <- <-]. eexists; split; [reflexivity|].
      simpl. rewrite length_app. simpl. lia.
    - apply Hnew. }
  destruct (deps p) as [[|d ds]|]; intros H.
  - apply Hcon, H.
  - apply (Hnew _ _ _ _ H).
  - apply Hcon, H.
Qed.

Lemma fresh_builds rt n s up X q p w :
  freshScope (cont w s) up ->
  getProvider w s X q = Some p ->
  get rt (S n) s X q w
  = match instantiate rt (get rt n) (getAsync rt n) s p
            (resolving_add s (keyOf rt X q) w) with
    | (Ok maybe, w') =>
        if isPromise maybe then (Throw (AsyncInSyncGet (keyOf rt X q)), w')
        else (Ok maybe,
              resolving_delete s (keyOf rt X q)
                (cacheAndTrack s p (keyOf rt X q) maybe w'))
    | (Throw e, w') => (Throw e, w')
    | (OutOfFuel, w') => (OutOfFuel, w')
    end.
Proof.
  intros (Hs & Hc & _ & _ & Hr & _) Hp.
  apply get_builds; rewrite ?Hs, ?Hc, ?Hr; done.
Qed.

Lemma fresh_class_address rt n s up X q p w v w' :
  freshScope (cont w s) up ->
  getProvider w s X q = Some p ->
  constructsClass p ->
  get rt n s X q w = (Ok v, w') ->
  exists a, v = VRef a /\ length (heap w) <= a < length (heap w').
Proof.
  intros Hfr Hp Hcl Hget. destruct n as [|n]; [discriminate|].
  rewrite (fresh_builds _ _ _ up _ _ p) in Hget by done.
  destruct (instantiate rt _ _ s p _) as [[maybe|e|] w1] eqn:Hi; try discriminate.
  destruct (isPromise maybe); [discriminate|]. injection Hget as <- <-.
  destruct (class_instance_address _ _ _ _ _ _ _ Hcl Hi) as (a & -> & Ha).
  exists a. split; [reflexivity|].
  unfold resolving_delete. rewrite heap_update, cacheAndTrack_heap.
  unfold resolving_add in Ha. rewrite heap_update in Ha. exact Ha.
Qed.

(** Two scopes begun one after the other from [c]: what the first one
    resolves does not reach the second one. *)
Lemma scopes_are_separate rt c w X q n v w3 :
  let s1 := (beginScope c w).1 in
  let w1 := (beginScope c w).2 in
  let s2 := (beginScope c w1).1 in
  let w2 := (beginScope c w1).2 in
  c < length (containers w) ->
  wfParents w ->
  get rt n s1 X q w2 = (Ok v, w3) ->
  freshScope (cont w2 s1) c /\
  freshScope (cont w2 s2) c /\
  freshScope (cont w3 s2) c /\
  length (heap w2) <= length (heap w3) /\
  (forall i q', getProvider w3 s2 i q' = getProvider w2 s2 i q').
Proof.
  intros s1 w1 s2 w2 Hc Hwf Hget.
  destruct (beginScope_fresh c w) as (Hs1 & Hl1 & Hfr1 & _ & _ & _ & _).
  destruct (beginScope_fresh c w1) as (Hs2 & Hl2 & Hfr2 & _ & _ & _ & Hother).
  fold s1 w1 in Hs1, Hl1, Hfr1. fold s2 w2 in Hs2, Hl2, Hfr2, Hother.
  fold w1 in Hs2, Hl2, Hother.
  assert (Hne : s1 <> s2) by lia.
  assert (Hfr1' : freshScope (cont w2 s1) c) by (rewrite Hother by done; exact Hfr1).
  assert (Hwf2 : wfParents w2).
  { apply beginScope_wfParents; [fold w1; lia|]. by apply beginScope_wfParents. }
  assert (Hroot : s2 <> root w2 s1).
  { pose proof (root_from_le (length (containers w2)) w2 s1 Hwf2). unfold root. lia. }
  pose proof (get_stable _ _ _ _ _ _ _ _ Hget) as Hst.
  destruct Hst as (Hl & Hh & _ & _ & Hp & Hx & Hs).
  split; [exact Hfr1'|]. split; [exact Hfr2|].
  split.
  - destruct Hfr2 as (F1 & F2 & F3 & F4 & F5 & F6). unfold freshScope.
    destruct (Hx s2 ltac:(done)) as (-> & -> & ->).
    destruct (Hp s2) as (-> & -> & _). rewrite (Hs s2 Hroot).
    repeat split; done.
  - split; [exact Hh|]. intros i q'.
    unfold getProvider. rewrite Hl. apply getProvider_from_ext.
    intros y. destruct (Hp y) as (? & ? & _). done.
Qed.

(** C9 fails as stated: a [scoped] provider of a literal value gives the
    same value to two scopes begun independently. *)
Lemma scoped_value_is_shared :
  registered scopedValue 1 RequestCtx None = Some sharedValue /\
  kind sharedValue = scoped /\
  (let '(s1, w1) := beginScopeDI scopedValue in
   let '(s2, w2) := beginScopeDI w1 in
   let '(r1, w3) := get noReflect 5 s1 RequestCtx None w2 in
   let '(r2, w4) := get noReflect 5 s2 RequestCtx None w3 in
   s1 <> s2 /\ r1 = Ok (VRef 0) /\ r2 = Ok (VRef 0)).
Proof. vm_compute. repeat split; try reflexivity. lia. Qed.

(** C9, as the code has it.  A scope begun with [beginScope] is a new
    container with empty caches, an empty registry and an empty disposal
    list, chained to the container it was begun from.  For an identifier
    registered [scoped], a resolution that succeeded in a container is
    repeated by every later [get] in that container: same instance, state
    unchanged.  When the provider constructs a class, two scopes begun from
    the same container get distinct instances. *)
Theorem scoped_per_scope rt c w X q p :
  let s1 := (beginScope c w).1 in
  let w1 := (beginScope c w).2 in
  let s2 := (beginScope c w1).1 in
  let w2 := (beginScope c w1).2 in
  c < length (containers w) ->
  wfParents w ->
  getProvider w2 s1 X q = Some p ->
  getProvider w2 s2 X q = Some p ->
  kind p = scoped ->
  (s1 <> s2 /\ freshScope (cont w2 s1) c /\ freshScope (cont w2 s2) c /\
   (forall x, x < length (containers w) -> cont w2 x = cont w x)) /\
  (forall n v1 w3,
     get rt n s1 X q w2 = (Ok v1, w3) ->
     (forall m, get rt (S m) s1 X q w3 = (Ok v1, w3)) /\
     (constructsClass p ->
      forall n' v2 w4, get rt n' s2 X q w3 = (Ok v2, w4) -> v1 <> v2)).
Proof.
  intros s1 w1 s2 w2 Hc Hwf Hp1 Hp2 Hk.
  destruct (beginScope_fresh c w) as (Hs1 & Hl1 & Hfr1 & _ & _ & _ & Ho1).
  destruct (beginScope_fresh c w1) as (Hs2 & Hl2 & Hfr2 & _ & _ & _ & Ho2).
  fold s1 w1 in Hs1, Hl1, Hfr1, Ho1. fold s2 w2 in Hs2, Hl2, Hfr2, Ho2.
  fold w1 in Hs2, Hl2, Ho2.
  split.
  - split; [lia|]. split; [rewrite Ho2 by lia; exact Hfr1|]. split; [exact Hfr2|].
    intros x Hx. rewrite Ho2, Ho1 by lia. reflexivity.
  - intros n v1 w3 Hget. split.
    + intros m. apply (scoped_get_twice rt s1 X q p n v1 w2 w3 m); try done. lia.
    + intros Hcl n' v2 w4 Hget2.
      destruct (scopes_are_separate rt c w X q n v1 w3 Hc Hwf Hget)
        as (F1 & F2 & F3 & Hh & Hprov).
      fold s1 w1 s2 w2 in F1, F2, F3, Hh, Hprov.
      destruct (fresh_class_address rt n s1 c X q p w2 v1 w3 F1 Hp1 Hcl Hget)
        as (a1 & -> & Ha1).
      assert (Hp3 : getProvider w3 s2 X q = Some p) by (rewrite Hprov; exact Hp2).
      destruct (fresh_class_address rt n' s2 c X q p w3 v2 w4 F3 Hp3 Hcl Hget2)
        as (a2 & -> & Ha2).
      intros [= ->]. lia.
Qed.

Lemma oneScoped_wfParents : wfParents oneScoped.
Proof.
  intros x up. destruct x as [|[|x]]; vm_compute; discriminate.
Qed.

Lemma scoped_per_scope_witness :
  get noReflect 1 2 RequestCtx None twoScopesResolved
  = (Ok (VRef 0), twoScopesResolved) /\
  VRef 0 <> VRef 1.
Proof.
  pose proof (scoped_per_scope noReflect 1 oneScoped RequestCtx None
                (scopedOf RequestCtx (inl noOpts))
                ltac:(vm_compute; lia) oneScoped_wfParents
                ltac:(vm_compute; reflexivity) ltac:(vm_compute; reflexivity)
                eq_refl) as [_ H].
  specialize (H 3 (VRef 0) twoScopesResolved ltac:(vm_compute; reflexivity)).
  destruct H as [Hsame Hdiff]. split.
  - apply (Hsame 0).
  - apply (Hdiff ltac:(repeat split; eexists; reflexivity) 3 (VRef 1)
             (snd (get noReflect 3 3 RequestCtx None twoScopesResolved))).
    vm_compute. reflexivity.
Defined.

(** * Further properties of the container *)

(** ** The registry: [setProvider], [getProvider], [load], [modules] *)

Lemma registered_inner w this i q :
  registered w this i q = default ∅ (providers (cont w this) !! i) !! q.
Proof.
  unfold registered. destruct (providers (cont w this) !! i); reflexivity.
Qed.

Lemma setProvider_refuses c :
  negb (allowOverride c) || bool_decide (overrideStrategy c = error)
  = negb (lastWinsPolicy c).
Proof.
  unfold lastWinsPolicy. destruct (allowOverride c); destruct (overrideStrategy c);
    reflexivity.
Qed.

Lemma setProvider_cases rt this p w :
  setProvider rt this p w
  = if bool_decide (is_Some (registered w this (id p) (qualifier p)))
       && negb (lastWinsPolicy (cont w this))
    then (Throw (BeanOverrideError (keyOf rt (id p) (qualifier p))), w)
    else (Ok tt,
          update this (with_providers (fun ps =>
            <[id p := <[qualifier p := p]>
                        (default ∅ (providers (cont w this) !! id p))]> ps)) w).
Proof.
  unfold setProvider. rewrite registered_inner, setProvider_refuses. reflexivity.
Qed.

Lemma registered_after_insert w this p i q :
  this < length (containers w) ->
  registered
    (update this (with_providers (fun ps =>
       <[id p := <[qualifier p := p]>
                   (default ∅ (providers (cont w this) !! id p))]> ps)) w) this i q
  = if decide ((i, q) = providerKey p) then Some p else registered w this i q.
Proof.
  intros Hlt. rewrite !registered_inner. rewrite cont_update_eq by done. simpl.
  unfold providerKey.
  destruct (decide (i = id p)) as [->|Hi].
  - rewrite lookup_insert_eq. simpl.
    destruct (decide (q = qualifier p)) as [->|Hq].
    + rewrite decide_True by done. apply lookup_insert_eq.
    + rewrite decide_False by congruence. apply lookup_insert_ne. congruence.
  - rewrite decide_False by congruence. rewrite lookup_insert_ne by congruence.
    reflexivity.
Qed.

(** The chain of parents of a well-formed store goes down: what
    [getProvider] finds from [x] depends on the containers up to [x] only. *)
Lemma getProvider_from_agree n w w' x i q :
  wfParents w ->
  (forall y, y <= x -> parent (cont w' y) = parent (cont w y) /\
                       providers (cont w' y) = providers (cont w y)) ->
  getProvider_from n w' x i q = getProvider_from n w x i q.
Proof.
  intros Hwf. revert x. induction n as [|n IH]; intros x Hy; [reflexivity|].
  simpl. destruct (Hy x (le_n x)) as [-> ->].
  destruct (providers (cont w x) !! i ≫= _); [reflexivity|].
  destruct (parent (cont w x)) as [up|] eqn:E; [|reflexivity].
  apply IH. intros y Hle. apply Hy. apply Hwf in E. lia.
Qed.

Lemma getProvider_from_enough n m w x i q :
  wfParents w -> x < n -> x < m ->
  getProvider_from n w x i q = getProvider_from m w x i q.
Proof.
  intros Hwf. revert m x. induction n as [|n IH]; intros m x Hn Hm; [lia|].
  destruct m as [|m]; [lia|]. simpl.
  destruct (providers (cont w x) !! i ≫= _); [reflexivity|].
  destruct (parent (cont w x)) as [up|] eqn:E; [|reflexivity].
  apply Hwf in E. apply IH; lia.
Qed.

(** X1: a scope begun from a container sees exactly the providers that the
    container sees: with its own registry empty, every lookup falls through
    to the parent, for every identifier and qualifier. *)
Theorem scope_inherits_providers c w i q :
  c < length (containers w) ->
  wfParents w ->
  getProvider (beginScope c w).2 (beginScope c w).1 i q = getProvider w c i q.
Proof.
  intros Hc Hwf.
  destruct (beginScope_fresh c w) as (Hs & Hl & Hfr & _ & _ & _ & Hother).
  destruct Hfr as (_ & _ & _ & Hprov & _ & Hpar).
  unfold getProvider. rewrite Hl. cbn [getProvider_from]. rewrite Hprov, Hpar.
  rewrite lookup_empty. cbn [mbind option_bind].
  apply getProvider_from_agree; [exact Hwf|].
  intros y Hy. rewrite Hother by lia. done.
Qed.

Lemma scope_inherits_providers_witness :
  getProvider (beginScope 1 oneScoped).2 (beginScope 1 oneScoped).1 RequestCtx None
  = Some (scopedOf RequestCtx (inl noOpts)).
Proof.
  assert (H1 : 1 < length (containers oneScoped)) by (vm_compute; lia).
  rewrite (scope_inherits_providers 1 oneScoped RequestCtx None H1 oneScoped_wfParents).
  vm_compute. reflexivity.
Defined.

(** What [setProvider] leaves alone. *)
Lemma setProvider_frame rt this p w r w' :
  setProvider rt this p w = (r, w') ->
  heap w' = heap w /\ trace w' = trace w /\ _container w' = _container w /\
  length (containers w') = length (containers w) /\
  (forall c, c <> this -> cont w' c = cont w c) /\
  (forall c, singles (cont w' c) = singles (cont w c) /\
             scopedCache (cont w' c) = scopedCache (cont w c) /\
             resolving (cont w' c) = resolving (cont w c) /\
             disposables (cont w' c) = disposables (cont w c) /\
             parent (cont w' c) = parent (cont w c) /\
             allowOverride (cont w' c) = allowOverride (cont w c) /\
             overrideStrategy (cont w' c) = overrideStrategy (cont w c)).
Proof.
  rewrite setProvider_cases. case_match; intros [= <- <-].
  - repeat split; done.
  - rewrite length_update. repeat split; try done.
    + intros c Hne. apply cont_update_ne. done.
    + apply (update_field singles). done.
    + apply (update_field scopedCache). done.
    + apply (update_field resolving). done.
    + apply (update_field disposables). done.
    + apply (update_field parent). done.
    + apply (update_field allowOverride). done.
    + apply (update_field overrideStrategy). done.
Qed.

(** X2: [setProvider] either stores the provider or refuses it.  When it
    succeeds, the provider is what [getProvider] finds for its (identifier,
    qualifier), every other entry of the registry is as before, and nothing
    but the registry of this container has changed.  It refuses exactly when
    the key has an entry and the policy is not "override allowed, last
    wins": then it throws [BeanOverrideError] and the state is untouched. *)
Theorem setProvider_registers rt this p w :
  this < length (containers w) ->
  let r := fst (setProvider rt this p w) in
  let w' := snd (setProvider rt this p w) in
  (is_Some (registered w this (id p) (qualifier p))
   /\ lastWinsPolicy (cont w this) = false ->
   r = Throw (BeanOverrideError (keyOf rt (id p) (qualifier p))) /\ w' = w) /\
  (registered w this (id p) (qualifier p) = None
   \/ lastWinsPolicy (cont w this) = true ->
   r = Ok tt /\
   getProvider w' this (id p) (qualifier p) = Some p /\
   (forall i q, (i, q) <> providerKey p ->
                registered w' this i q = registered w this i q) /\
   (forall c, c <> this -> cont w' c = cont w c) /\
   singles (cont w' this) = singles (cont w this) /\
   scopedCache (cont w' this) = scopedCache (cont w this) /\
   resolving (cont w' this) = resolving (cont w this) /\
   disposables (cont w' this) = disposables (cont w this) /\
   heap w' = heap w).
Proof.
  intros Hlt r w'. subst r w'. split.
  - intros [Hreg Hpol]. rewrite setProvider_cases.
    rewrite bool_decide_eq_true_2 by done. rewrite Hpol. simpl. done.
  - intros Hok.
    assert (Hc : bool_decide (is_Some (registered w this (id p) (qualifier p)))
                 && negb (lastWinsPolicy (cont w this)) = false).
    { destruct Hok as [Hnone| ->]; [|apply andb_false_r].
      rewrite Hnone. rewrite bool_decide_eq_false_2; [reflexivity|].
      intros [? ?]; discriminate. }
    destruct (setProvider rt this p w) as [r w'] eqn:E.
    pose proof (setProvider_frame _ _ _ _ _ _ E) as (Hh & _ & _ & Hl & Hoth & Hf).
    rewrite setProvider_cases, Hc in E. injection E as <- <-. simpl.
    split; [reflexivity|].
    split.
    { apply getProvider_local; [rewrite length_update; done|].
      rewrite registered_after_insert by done. rewrite decide_True by done. done. }
    split.
    { intros i q Hne. rewrite registered_after_insert by done.
      rewrite decide_False by done. done. }
    split; [exact Hoth|].
    destruct (Hf this) as (-> & -> & -> & -> & _). done.
Qed.

Lemma setProvider_registers_witness :
  fst (setProvider noReflect 1 (singleOf Repo (inr connFactory)) oneSingle)
  = Throw (BeanOverrideError "Repo") /\
  snd (setProvider noReflect 1 (singleOf Repo (inr connFactory)) oneSingle) = oneSingle.
Proof.
  assert (H1 : 1 < length (containers oneSingle)) by (vm_compute; lia).
  assert (H2 : is_Some (registered oneSingle 1 Repo None) /\
               lastWinsPolicy (cont oneSingle 1) = false).
  { split; [eexists|]; vm_compute; reflexivity. }
  exact (proj1 (setProvider_registers noReflect 1 (singleOf Repo (inr connFactory))
                  oneSingle H1) H2).
Defined.

(** X3: a registration made in a scope is local to it.  The scope finds the
    new provider, also when its parent has one for the same key, and what the
    parent finds is unchanged, for every identifier and qualifier. *)
Theorem scope_registration_is_local rt s up p w w' :
  s < length (containers w) ->
  wfParents w ->
  parent (cont w s) = Some up ->
  setProvider rt s p w = (Ok tt, w') ->
  getProvider w' s (id p) (qualifier p) = Some p /\
  (forall i q, getProvider w' up i q = getProvider w up i q).
Proof.
  intros Hlt Hwf Hpar E.
  pose proof (setProvider_frame _ _ _ _ _ _ E) as (_ & _ & _ & Hl & Hoth & _).
  split.
  - rewrite setProvider_cases in E. case_match; [discriminate|].
    injection E as <-.
    apply getProvider_local; [rewrite length_update; done|].
    rewrite registered_after_insert by done. rewrite decide_True by done. done.
  - intros i q. unfold getProvider. rewrite Hl.
    apply getProvider_from_agree; [exact Hwf|].
    intros y Hy. apply Hwf in Hpar. rewrite Hoth by lia. done.
Qed.

Lemma twoScopes_wfParents : wfParents twoScopes.
Proof.
  unfold twoScopes. apply beginScope_wfParents.
  - vm_compute. lia.
  - apply beginScope_wfParents; [vm_compute; lia | apply oneScoped_wfParents].
Qed.

Lemma scope_registration_is_local_witness :
  getProvider (snd (setProvider noReflect 2 sharedValue twoScopes)) 2 RequestCtx None
  = Some sharedValue /\
  getProvider (snd (setProvider noReflect 2 sharedValue twoScopes)) 1 RequestCtx None
  = Some (scopedOf RequestCtx (inl noOpts)).
Proof.
  assert (H1 : 2 < length (containers twoScopes)) by (vm_compute; lia).
  assert (H2 : parent (cont twoScopes 2) = Some 1) by (vm_compute; reflexivity).
  assert (H3 : setProvider noReflect 2 sharedValue twoScopes
               = (Ok tt, snd (setProvider noReflect 2 sharedValue twoScopes)))
    by (vm_compute; reflexivity).
  pose proof (scope_registration_is_local noReflect 2 1 sharedValue twoScopes _
                H1 twoScopes_wfParents H2 H3) as [Ha Hb].
  split; [exact Ha|]. rewrite Hb. vm_compute. reflexivity.
Defined.

(** *** [load] *)

Lemma load_cons rt this p ps w :
  load rt this (p :: ps) w
  = match setProvider rt this p w with
    | (Ok _, w1) => load rt this ps w1
    | (Throw e, w1) => (Throw e, w1)
    | (OutOfFuel, w1) => (OutOfFuel, w1)
    end.
Proof. reflexivity. Qed.

Lemma lastFor_cons p ps i q :
  lastFor (p :: ps) i q
  = match lastFor ps i q with
    | Some p' => Some p'
    | None => if decide ((i, q) = providerKey p) then Some p else None
    end.
Proof.
  unfold lastFor. rewrite filter_cons.
  destruct (decide (providerKey p = (i, q))) as [Heq|Hne].
  - rewrite last_cons. rewrite decide_True by done. reflexivity.
  - rewrite decide_False by done. destruct (last _); reflexivity.
Qed.

Lemma load_registry_aux rt this ps :
  forall w w',
    this < length (containers w) ->
    load rt this ps w = (Ok tt, w') ->
    forall i q,
      registered w' this i q
      = match lastFor ps i q with
        | Some p => Some p
        | None => registered w this i q
        end.
Proof.
  induction ps as [|p ps IH]; intros w w' Hlt Hload i q.
  - injection Hload as <-. reflexivity.
  - rewrite load_cons in Hload.
    destruct (setProvider rt this p w) as [[[]|e|] w1] eqn:E; try discriminate.
    pose proof (setProvider_frame _ _ _ _ _ _ E) as (_ & _ & _ & Hl & _).
    rewrite (IH w1 w' ltac:(lia) Hload i q), lastFor_cons.
    destruct (lastFor ps i q); [reflexivity|].
    rewrite setProvider_cases in E. case_match; [discriminate|].
    injection E as <-. rewrite registered_after_insert by done.
    case_decide; reflexivity.
Qed.

(** X4: when [load] succeeds, the registry holds, for each key, the provider
    that the module lists last for it, and what it held before for the keys
    that the module does not mention. *)
Theorem load_registry rt this ps w w' i q :
  this < length (containers w) ->
  load rt this ps w = (Ok tt, w') ->
  registered w' this i q
  = match lastFor ps i q with
    | Some p => Some p
    | None => registered w this i q
    end.
Proof. intros Hlt Hload. apply (load_registry_aux rt this ps w w' Hlt Hload). Qed.

Lemma load_registry_witness :
  registered (snd (load noReflect 1
                     [singleOf Repo (inl noOpts); singleOf Repo (inr connFactory)]
                     lastWinsWorld)) 1 Repo None
  = Some (singleOf Repo (inr connFactory)).
Proof.
  assert (H1 : 1 < length (containers lastWinsWorld)) by (vm_compute; lia).
  assert (H2 : load noReflect 1
                 [singleOf Repo (inl noOpts); singleOf Repo (inr connFactory)]
                 lastWinsWorld
               = (Ok tt, snd (load noReflect 1
                     [singleOf Repo (inl noOpts); singleOf Repo (inr connFactory)]
                     lastWinsWorld))) by (vm_compute; reflexivity).
  rewrite (load_registry noReflect 1 _ lastWinsWorld _ Repo None H1 H2).
  vm_compute. reflexivity.
Defined.

Lemma load_stops_at_conflict_aux rt this ps :
  forall w e w',
    this < length (containers w) ->
    load rt this ps w = (Throw e, w') ->
    exists before p after,
      ps = before ++ p :: after /\
      e = BeanOverrideError (keyOf rt (id p) (qualifier p)) /\
      load rt this before w = (Ok tt, w') /\
      is_Some (registered w' this (id p) (qualifier p)) /\
      lastWinsPolicy (cont w this) = false.
Proof.
  induction ps as [|p ps IH]; intros w e w' Hlt Hload; [discriminate|].
  rewrite load_cons in Hload.
  destruct (setProvider rt this p w) as [[[]|e1|] w1] eqn:E; try discriminate.
  - pose proof (setProvider_frame _ _ _ _ _ _ E) as (_ & _ & _ & Hl & _ & Hf).
    destruct (IH w1 e w' ltac:(lia) Hload) as (before & p' & after & -> & -> & Hb & Hr & Hp).
    exists (p :: before), p', after. split; [reflexivity|]. split; [reflexivity|].
    split; [rewrite load_cons, E; exact Hb|]. split; [exact Hr|].
    unfold lastWinsPolicy in *. destruct (Hf this) as (_ & _ & _ & _ & _ & <- & <-).
    exact Hp.
  - injection Hload as <- <-. rewrite setProvider_cases in E.
    destruct (bool_decide _ && _) eqn:Hc; [|discriminate].
    injection E as <- <-. apply andb_true_iff in Hc as [Hreg Hpol].
    exists [], p, ps. split; [reflexivity|]. split; [reflexivity|].
    split; [reflexivity|]. split; [by apply bool_decide_eq_true_1 in Hreg|].
    by apply negb_true_iff in Hpol.
Qed.

(** X5: when [load] fails, it has stopped at the first provider whose key
    was taken: the error names that key, the providers before it have been
    registered and stay registered (nothing is rolled back), the providers
    after it have not been looked at. *)
Theorem load_stops_at_conflict rt this ps w e w' :
  this < length (containers w) ->
  load rt this ps w = (Throw e, w') ->
  exists before p after,
    ps = before ++ p :: after /\
    e = BeanOverrideError (keyOf rt (id p) (qualifier p)) /\
    load rt this before w = (Ok tt, w') /\
    is_Some (registered w' this (id p) (qualifier p)) /\
    lastWinsPolicy (cont w this) = false.
Proof. intros Hlt Hload. apply (load_stops_at_conflict_aux rt this ps w e w' Hlt Hload). Qed.

Lemma load_stops_at_conflict_witness :
  exists before p after,
    [singleOf Repo (inl noOpts); singleOf Service (withDeps [Repo]);
     singleOf Repo (inr connFactory); singleOf Conn (inr connFactory)]
    = before ++ p :: after /\
    BeanOverrideError "Repo" = BeanOverrideError (keyOf noReflect (id p) (qualifier p)) /\
    load noReflect 1 before (started noReflect [] None)
    = (Ok tt, snd (load noReflect 1
         [singleOf Repo (inl noOpts); singleOf Service (withDeps [Repo]);
          singleOf Repo (inr connFactory); singleOf Conn (inr connFactory)]
         (started noReflect [] None))) /\
    is_Some (registered (snd (load noReflect 1
         [singleOf Repo (inl noOpts); singleOf Service (withDeps [Repo]);
          singleOf Repo (inr connFactory); singleOf Conn (inr connFactory)]
         (started noReflect [] None))) 1 (id p) (qualifier p)) /\
    lastWinsPolicy (cont (started noReflect [] None) 1) = false.
Proof.
  assert (H1 : 1 < length (containers (started noReflect [] None)))
    by (vm_compute; lia).
  assert (H2 : load noReflect 1
         [singleOf Repo (inl noOpts); singleOf Service (withDeps [Repo]);
          singleOf Repo (inr connFactory); singleOf Conn (inr connFactory)]
         (started noReflect [] None)
       = (Throw (BeanOverrideError "Repo"),
          snd (load noReflect 1
         [singleOf Repo (inl noOpts); singleOf Service (withDeps [Repo]);
          singleOf Repo (inr connFactory); singleOf Conn (inr connFactory)]
         (started noReflect [] None)))) by (vm_compute; reflexivity).
  exact (load_stops_at_conflict noReflect 1 _ _ _ _ H1 H2).
Defined.

Lemma load_outcome rt this ps w :
  fst (load rt this ps w) <> OutOfFuel.
Proof.
  revert w. induction ps as [|p ps IH]; intros w; [discriminate|].
  rewrite load_cons. rewrite setProvider_cases.
  destruct (bool_decide _ && _); [discriminate | apply IH].
Qed.

Lemma lastFor_elem ps i q p : lastFor ps i q = Some p -> p ∈ ps /\ providerKey p = (i, q).
Proof.
  unfold lastFor. intros H. apply last_Some_elem_of in H.
  apply list_elem_of_filter in H. tauto.
Qed.

Lemma lastFor_NoDup ps p :
  NoDup (map providerKey ps) -> p ∈ ps ->
  lastFor ps (id p) (qualifier p) = Some p.
Proof.
  induction ps as [|p0 ps IH]; intros Hnd Hin.
  - by apply elem_of_nil in Hin.
  - apply NoDup_cons in Hnd as [Hnot Hnd]. rewrite lastFor_cons.
    apply elem_of_cons in Hin as [->|Hin].
    + destruct (lastFor ps (id p0) (qualifier p0)) as [p'|] eqn:E.
      * exfalso. apply lastFor_elem in E as [Hin' Hk]. apply Hnot.
        apply list_elem_of_fmap. exists p'. split; [|done]. symmetry. exact Hk.
      * rewrite decide_True by done. reflexivity.
    + rewrite (IH Hnd Hin). reflexivity.
Qed.

(** X6: [load] succeeds whenever the policy is "override allowed, last
    wins", and, under any policy, whenever the keys of the module are
    pairwise distinct and free in the registry; in the second case every
    provider of the module is then the one found for its key. *)
Theorem load_succeeds rt this ps w :
  this < length (containers w) ->
  lastWinsPolicy (cont w this) = true \/
  (NoDup (map providerKey ps) /\
   forall p, p ∈ ps -> registered w this (id p) (qualifier p) = None) ->
  exists w',
    load rt this ps w = (Ok tt, w') /\
    (NoDup (map providerKey ps) ->
     forall p, p ∈ ps -> getProvider w' this (id p) (qualifier p) = Some p).
Proof.
  intros Hlt Hcond.
  destruct (load rt this ps w) as [[[]|e|] w'] eqn:E.
  - exists w'. split; [reflexivity|]. intros Hnd p Hp.
    assert (Hl : length (containers w') = length (containers w)).
    { clear Hcond Hnd Hp. revert w w' Hlt E.
      induction ps as [|p0 ps IH]; intros w w' Hlt E.
      - by injection E as <-.
      - rewrite load_cons in E.
        destruct (setProvider rt this p0 w) as [[[]|e1|] w1] eqn:E1; try discriminate.
        pose proof (setProvider_frame _ _ _ _ _ _ E1) as (_ & _ & _ & Hl1 & _).
        rewrite (IH w1 w' ltac:(lia) E). exact Hl1. }
    apply getProvider_local; [lia|].
    rewrite (load_registry_aux rt this ps w w' Hlt E), (lastFor_NoDup ps p Hnd Hp).
    reflexivity.
  - exfalso.
    destruct (load_stops_at_conflict_aux rt this ps w e w' Hlt E)
      as (before & p & after & -> & _ & Hb & Hreg & Hpol).
    destruct Hcond as [Hlw|[Hnd Hfree]]; [congruence|].
    rewrite (load_registry_aux rt this before w w' Hlt Hb) in Hreg.
    destruct (lastFor before (id p) (qualifier p)) as [p'|] eqn:El.
    + apply lastFor_elem in El as [Hin Hk].
      rewrite map_app in Hnd. apply NoDup_app in Hnd as (_ & Hdis & _).
      apply (Hdis (providerKey p')).
      * apply list_elem_of_fmap. exists p'. done.
      * rewrite Hk. simpl. left.
    + rewrite Hfree in Hreg; [by destruct Hreg|].
      apply elem_of_app. right. left.
  - exfalso. apply (load_outcome rt this ps w). rewrite E. reflexivity.
Qed.

Lemma load_succeeds_witness :
  exists w',
    load noReflect 1 suiteModule (started noReflect [] None) = (Ok tt, w') /\
    (NoDup (map providerKey suiteModule) ->
     forall p, p ∈ suiteModule -> getProvider w' 1 (id p) (qualifier p) = Some p).
Proof.
  assert (H1 : 1 < length (containers (started noReflect [] None)))
    by (vm_compute; lia).
  assert (H2 : NoDup (map providerKey suiteModule) /\
               forall p, p ∈ suiteModule ->
                 registered (started noReflect [] None) 1 (id p) (qualifier p) = None).
  { split.
    - vm_compute. repeat constructor; rewrite ?elem_of_cons; intros H;
        repeat (destruct H as [H|H]; [discriminate|]); by apply elem_of_nil in H.
    - intros p Hp. unfold registered.
      change (providers (cont (started noReflect [] None) 1)) with
        (∅ : gmap Id (gmap (option Qualifier) Provider)).
      rewrite lookup_empty. reflexivity. }
  exact (load_succeeds noReflect 1 suiteModule _ H1 (or_intror H2)).
Defined.

(** X7: [modules] puts the providers of its modules one after the other, and
    loading the merged module is loading the modules in that order: the
    first conflict in the sequence ends it. *)
Theorem load_modules rt this m ms w :
  modules (m :: ms) = m ++ modules ms /\
  load rt this (modules (m :: ms)) w
  = match load rt this m w with
    | (Ok _, w1) => load rt this (modules ms) w1
    | (Throw e, w1) => (Throw e, w1)
    | (OutOfFuel, w1) => (OutOfFuel, w1)
    end.
Proof.
  split; [reflexivity|].
  change (modules (m :: ms)) with (m ++ modules ms).
  generalize (modules ms). intros rest. revert w.
  induction m as [|p m IH]; intros w; [reflexivity|].
  change ((p :: m) ++ rest) with (p :: (m ++ rest)). rewrite !load_cons.
  destruct (setProvider rt this p w) as [[[]|e|] w1]; [apply IH| |]; reflexivity.
Qed.

Lemma load_frame rt this ps :
  forall w r w',
    load rt this ps w = (r, w') ->
    heap w' = heap w /\ trace w' = trace w /\ _container w' = _container w /\
    length (containers w') = length (containers w) /\
    (forall c, c <> this -> cont w' c = cont w c) /\
    (forall c, singles (cont w' c) = singles (cont w c) /\
               scopedCache (cont w' c) = scopedCache (cont w c) /\
               resolving (cont w' c) = resolving (cont w c) /\
               disposables (cont w' c) = disposables (cont w c) /\
               parent (cont w' c) = parent (cont w c) /\
               allowOverride (cont w' c) = allowOverride (cont w c) /\
               overrideStrategy (cont w' c) = overrideStrategy (cont w c)).
Proof.
  induction ps as [|p ps IH]; intros w r w' E.
  - injection E as <- <-. repeat split; done.
  - rewrite load_cons in E.
    destruct (setProvider rt this p w) as [[[]|e|] w1] eqn:E1.
    + pose proof (setProvider_frame _ _ _ _ _ _ E1) as (A1 & A2 & A3 & A4 & A5 & A6).
      pose proof (IH _ _ _ E) as (B1 & B2 & B3 & B4 & B5 & B6).
      split; [congruence|]. split; [congruence|]. split; [congruence|].
      split; [congruence|]. split.
      * intros c Hc. rewrite B5, A5 by done. done.
      * intros c. destruct (A6 c) as (? & ? & ? & ? & ? & ? & ?).
        destruct (B6 c) as (? & ? & ? & ? & ? & ? & ?).
        repeat split; congruence.
    + injection E as <- <-. apply (setProvider_frame _ _ _ _ _ _ E1).
    + injection E as <- <-. apply (setProvider_frame _ _ _ _ _ _ E1).
Qed.

(** ** [override], [reset], [shutdown], [startDI] *)

Lemma setProvider_ok rt this p w :
  this < length (containers w) ->
  registered w this (id p) (qualifier p) = None
  \/ lastWinsPolicy (cont w this) = true ->
  exists w1, setProvider rt this p w = (Ok tt, w1) /\
             getProvider w1 this (id p) (qualifier p) = Some p.
Proof.
  intros Hlt Hok. rewrite setProvider_cases.
  assert (Hc : bool_decide (is_Some (registered w this (id p) (qualifier p)))
               && negb (lastWinsPolicy (cont w this)) = false).
  { destruct Hok as [Hnone| ->]; [|apply andb_false_r].
    rewrite Hnone. rewrite bool_decide_eq_false_2; [reflexivity|].
    intros [? ?]; discriminate. }
  rewrite Hc. eexists. split; [reflexivity|].
  apply getProvider_local; [rewrite length_update; done|].
  rewrite registered_after_insert by done. rewrite decide_True by done. done.
Qed.

(** X8: [override] first registers a [single] provider of the value, under
    the override policy of the container.  When the key has an entry and the
    policy is not "last wins" it throws [BeanOverrideError] and seeds
    nothing.  Otherwise the value is put into the singleton cache of the
    root, and every later [get] of the key on the root returns the value at
    once, whatever was cached or registered before, also when the value is
    [undefined], and also when the override was made in a scope and the root
    itself has no provider for the key. *)
Theorem override_seeds_cache rt this i v q w :
  this < length (containers w) ->
  wfParents w ->
  (is_Some (registered w this i q) /\ lastWinsPolicy (cont w this) = false ->
   override rt this i v q w = (Throw (BeanOverrideError (keyOf rt i q)), w)) /\
  (registered w this i q = None \/ lastWinsPolicy (cont w this) = true ->
   exists w',
     override rt this i v q w = (Ok tt, w') /\
     singles (cont w' (root w this)) !! keyOf rt i q = Some v /\
     getProvider w' this i q = Some (mkProvider single i q None None v None None) /\
     (forall n, get rt (S n) (root w this) i q w' = (Ok v, w'))).
Proof.
  intros Hlt Hwf. split.
  - intros [Hreg Hpol]. unfold override, bind.
    rewrite setProvider_cases. simpl.
    rewrite bool_decide_eq_true_2 by done. rewrite Hpol. reflexivity.
  - intros Hok.
    destruct (setProvider_ok rt this (mkProvider single i q None None v None None) w
                Hlt Hok) as (w1 & E & Hp1). simpl in Hp1.
    pose proof (setProvider_frame _ _ _ _ _ _ E) as (_ & _ & _ & Hl & _ & Hf).
    assert (Hroot : root w1 this = root w this).
    { apply root_ext; [exact Hl|]. intros y. destruct (Hf y) as (_ & _ & _ & _ & -> & _).
      reflexivity. }
    assert (Hrlt : root w this < length (containers w1)).
    { pose proof (root_from_le (length (containers w)) w this Hwf). unfold root. lia. }
    eexists. split.
    { unfold override, bind. rewrite E. rewrite Hroot. reflexivity. }
    split.
    { rewrite cont_update_eq by exact Hrlt. simpl. apply lookup_insert_eq. }
    split.
    { rewrite getProvider_update; [exact Hp1|]. intros x. split; reflexivity. }
    intros n. rewrite get_S. unfold get_body.
    rewrite cont_update_eq by exact Hrlt. simpl.
    rewrite lookup_insert_eq. reflexivity.
Qed.

Lemma override_seeds_cache_witness :
  exists w',
    override noReflect 1 Repo VUndefined None lastWinsWorld = (Ok tt, w') /\
    singles (cont w' (root lastWinsWorld 1)) !! keyOf noReflect Repo None
    = Some VUndefined /\
    getProvider w' 1 Repo None
    = Some (mkProvider single Repo None None None VUndefined None None) /\
    (forall n, get noReflect (S n) (root lastWinsWorld 1) Repo None w'
               = (Ok VUndefined, w')).
Proof.
  assert (H1 : 1 < length (containers lastWinsWorld)) by (vm_compute; lia).
  assert (H2 : wfParents lastWinsWorld).
  { intros x up. destruct x as [|[|x]]; vm_compute; discriminate. }
  assert (H3 : registered lastWinsWorld 1 Repo None = None
               \/ lastWinsPolicy (cont lastWinsWorld 1) = true)
    by (right; vm_compute; reflexivity).
  exact (proj2 (override_seeds_cache noReflect 1 Repo VUndefined None lastWinsWorld
                  H1 H2) H3).
Defined.

(** X9: [shutdown] is idempotent: a second [shutdown] finds the disposal
    list empty, calls no cleanup and changes nothing. *)
Theorem shutdown_idempotent rt c w :
  shutdown rt c (shutdown rt c w) = shutdown rt c w.
Proof.
  assert (Hd : disposables (cont (shutdown rt c w) c) = []).
  { unfold shutdown. rewrite cont_update. case_decide as Hc; [reflexivity|].
    rewrite shutdown_loop_traced by done. rewrite cont_traced.
    destruct (decide (c < length (containers w))) as [Hlt|Hge].
    - exfalso. apply Hc. split; [reflexivity|].
      rewrite shutdown_loop_traced by done. exact Hlt.
    - rewrite cont_beyond by lia. reflexivity. }
  unfold shutdown at 1. rewrite Hd. simpl.
  unfold shutdown. rewrite update_update. apply update_ext.
  intros x _. reflexivity.
Qed.

(** X10: [reset] of a container without parent forgets everything but the
    override policy: no provider is found any more for any key, both caches,
    the in-flight set and the disposal list are empty; it calls no cleanup
    (the trace is as before) and touches no other container.  The disposal
    entries are dropped, not run. *)
Theorem reset_forgets this w :
  this < length (containers w) ->
  parent (cont w this) = None ->
  let w' := reset this w in
  (forall i q, getProvider w' this i q = None) /\
  singles (cont w' this) = ∅ /\
  scopedCache (cont w' this) = ∅ /\
  resolving (cont w' this) = ∅ /\
  disposables (cont w' this) = [] /\
  lastWinsPolicy (cont w' this) = lastWinsPolicy (cont w this) /\
  trace w' = trace w /\
  heap w' = heap w /\
  (forall c, c <> this -> cont w' c = cont w c).
Proof.
  intros Hlt Hpar w'. subst w'. unfold reset.
  assert (Hc : cont (update this (fun c =>
                 mkContainer ∅ ∅ ∅ (parent c) ∅ [] (allowOverride c) (overrideStrategy c)) w)
                 this
               = mkContainer ∅ ∅ ∅ None ∅ [] (allowOverride (cont w this))
                             (overrideStrategy (cont w this))).
  { rewrite cont_update_eq by done. rewrite Hpar. reflexivity. }
  split.
  { intros i q. unfold getProvider. rewrite length_update.
    destruct (length (containers w)) as [|n] eqn:El; [lia|].
    cbn [getProvider_from]. rewrite Hc. simpl. rewrite lookup_empty. reflexivity. }
  rewrite Hc. simpl. repeat split.
  intros c Hne. apply cont_update_ne. done.
Qed.

Lemma reset_forgets_witness :
  getProvider (reset 1 dbAndCache) 1 Db None = None /\
  disposables (cont (reset 1 dbAndCache) 1) = [] /\
  trace (reset 1 dbAndCache) = trace dbAndCache.
Proof.
  assert (H1 : 1 < length (containers dbAndCache)) by (vm_compute; lia).
  assert (H2 : parent (cont dbAndCache 1) = None) by (vm_compute; reflexivity).
  pose proof (reset_forgets 1 dbAndCache H1 H2) as (Ha & _ & _ & _ & Hb & _ & Hc & _).
  split; [apply Ha|]. split; [exact Hb | exact Hc].
Defined.

Lemma startDI_eq rt ms opts w :
  startDI rt ms opts w
  = load rt (length (containers w)) (modules ms)
      (mkWorld (heap w)
         (containers w ++
            [configure (default (mkStartOptions None None) opts) (newContainer None)])
         (trace w) (length (containers w))).
Proof. reflexivity. Qed.

(** X11: [startDI] makes a new container and points [_container] to it
    before it loads the modules: whether the load succeeds or throws, the
    module variable is the new container, which has no parent, empty caches
    and the given policy; the containers that existed, the heap and the
    trace are untouched.  Nothing of the previous container is carried
    over, and it is not shut down. *)
Theorem startDI_switches rt ms opts w :
  let w' := snd (startDI rt ms opts w) in
  let c := length (containers w) in
  _container w' = c /\
  length (containers w') = S c /\
  parent (cont w' c) = None /\
  singles (cont w' c) = ∅ /\
  scopedCache (cont w' c) = ∅ /\
  disposables (cont w' c) = [] /\
  resolving (cont w' c) = ∅ /\
  allowOverride (cont w' c) = default false (opts ≫= opt_allowOverride) /\
  (forall x, x < c -> cont w' x = cont w x) /\
  heap w' = heap w /\
  trace w' = trace w.
Proof.
  intros w' c. subst w' c. rewrite startDI_eq.
  set (o := default (mkStartOptions None None) opts).
  set (w0 := mkWorld (heap w)
               (containers w ++ [configure o (newContainer None)])
               (trace w) (length (containers w))).
  destruct (load rt (length (containers w)) (modules ms) w0) as [r w'] eqn:E.
  cbn [snd].
  pose proof (load_frame _ _ _ _ _ _ E) as (A1 & A2 & A3 & A4 & A5 & A6).
  assert (Hc0 : cont w0 (length (containers w)) = configure o (newContainer None)).
  { unfold w0. rewrite cont_snoc. rewrite decide_False by lia.
    rewrite decide_True by reflexivity. reflexivity. }
  destruct (A6 (length (containers w))) as (-> & -> & -> & -> & -> & -> & _).
  rewrite Hc0.
  split; [exact A3|].
  split; [rewrite A4; unfold w0; simpl; rewrite length_app; simpl; lia|].
  repeat (split; [reflexivity|]).
  split; [subst o; destruct opts as [[[a|] s]|]; reflexivity|].
  split; [|split; [exact A1 | exact A2]].
  intros x Hx. rewrite A5 by lia. unfold w0. rewrite cont_snoc.
  rewrite decide_True by lia. reflexivity.
Qed.

(** ** Resolution: what [get] and [getAsync] change *)

Lemma instantiate_stable rt n c p w r w' :
  instantiate rt (get rt n) (getAsync rt n) c p w = (r, w') -> stable c w w'.
Proof.
  intros Hi. destruct (resolution_stable rt c n w) as [Hg Hga].
  refine (instantiate_preserves rt c _ _ _ _ Hg Hga p _ _ _ Hi _).
  - intros w0 cls args. apply stable_new.
  - apply stable_refl.
Qed.

(** X12: whatever its outcome, a [get] or [getAsync] on a container leaves
    the registries, parents and policies of all containers, the trace and
    [_container] as they are; no container loses or gains a container; the
    scope cache, disposal list and in-flight set of every other container
    are untouched, and so is the singleton cache of every container but the
    root of the one asked.  Objects are only added to the heap. *)
Theorem resolution_frame rt c fuel i q w :
  stable c w (snd (get rt fuel c i q w)) /\
  stable c w (snd (getAsync rt fuel c i q w)).
Proof.
  destruct (resolution_stable rt c fuel w) as [Hg Hga]. split.
  - destruct (get rt fuel c i q w) as [r w'] eqn:E.
    exact (Hg _ _ _ _ _ E (stable_refl c w)).
  - destruct (getAsync rt fuel c i q w) as [r w'] eqn:E.
    exact (Hga _ _ _ _ _ E (stable_refl c w)).
Qed.



Lemma cacheAndTrack_disposables c p k v w x :
  disposables (cont (cacheAndTrack c p k v w) x)
  = disposables (cont w x)
    ++ (if decide (c = x /\ c < length (containers w) /\ kind p <> factory)
        then [mkDisposable k v (onClose p)] else []).
Proof.
  unfold cacheAndTrack.
  set (w1 := if decide (kind p = single) then _ else w).
  set (w2 := if decide (kind p = scoped) then _ else w1).
  assert (H1 : disposables (cont w1 x) = disposables (cont w x)
               /\ length (containers w1) = length (containers w)).
  { unfold w1. case_decide; [|done].
    rewrite (update_field disposables), length_update by done. done. }
  assert (H2 : disposables (cont w2 x) = disposables (cont w x)
               /\ length (containers w2) = length (containers w)).
  { unfold w2. case_decide; [|done].
    rewrite (update_field disposables), length_update by done. done. }
  destruct H2 as [H2 L2].
  destruct (decide (kind p <> factory)) as [Hk|Hk].
  - rewrite cont_update, L2.
    destruct (decide (c = x /\ c < length (containers w))) as [[-> Hlt]|Hn].
    + simpl. rewrite H2. case_decide as Hd; [reflexivity|]. exfalso. tauto.
    + rewrite H2. case_decide as Hd; [exfalso; tauto|]. by rewrite app_nil_r.
  - rewrite H2. case_decide as Hd; [exfalso; tauto|]. by rewrite app_nil_r.
Qed.

(** X14: a resolution only appends.  Whatever its outcome, the heap before
    is a prefix of the heap after (no object is removed or replaced), and
    for every container the disposal list before is a prefix of the disposal
    list after (no entry is removed or reordered). *)
Theorem resolution_appends rt c fuel i q w :
  let after r := heap w `prefix_of` heap r /\
                 forall x, disposables (cont w x) `prefix_of` disposables (cont r x) in
  after (snd (get rt fuel c i q w)) /\ after (snd (getAsync rt fuel c i q w)).
Proof.
  intros after.
  assert (H : (forall i q w0 r w', get rt fuel c i q w0 = (r, w') -> after w0 -> after w')
              /\ (forall i q w0 r w', getAsync rt fuel c i q w0 = (r, w') ->
                    after w0 -> after w')).
  { apply resolution_preserves; unfold after.
    - intros w0 cls args [Hh Hd]. split; [|exact Hd].
      simpl. by apply prefix_app_r.
    - intros w0 k [Hh Hd] _. split; [exact Hh|]. intros x.
      unfold resolving_add. rewrite (update_field disposables) by done. apply Hd.
    - intros w0 k w2 p v _ _ [Hh Hd]. split.
      + unfold resolving_delete. rewrite heap_update, cacheAndTrack_heap. exact Hh.
      + intros x. unfold resolving_delete.
        rewrite (update_field disposables) by done.
        rewrite cacheAndTrack_disposables. by apply prefix_app_r. }
  assert (H0 : after w) by (split; [|intros x]; reflexivity).
  destruct H as [Hg Hga]. split.
  - destruct (get rt fuel c i q w) as [r w'] eqn:E. exact (Hg _ _ _ _ _ E H0).
  - destruct (getAsync rt fuel c i q w) as [r w'] eqn:E. exact (Hga _ _ _ _ _ E H0).
Qed.

(** X15: in a container without parent, an identifier registered [single]
    is built once: after a [get] has returned its instance, every later
    [get] of it returns the same instance and changes nothing, with any
    fuel. *)
Theorem single_is_built_once_at_root rt c X q p n v w w1 m :
  c < length (containers w) ->
  parent (cont w c) = None ->
  getProvider w c X q = Some p ->
  kind p = single ->
  get rt n c X q w = (Ok v, w1) ->
  get rt (S m) c X q w1 = (Ok v, w1).
Proof. apply single_get_twice_at_root. Qed.

Lemma single_is_built_once_at_root_witness :
  get noReflect 1 1 Repo None (snd (get noReflect 3 1 Repo None oneSingle))
  = (Ok (VRef 0), snd (get noReflect 3 1 Repo None oneSingle)).
Proof.
  assert (H1 : 1 < length (containers oneSingle)) by (vm_compute; lia).
  assert (H2 : parent (cont oneSingle 1) = None) by (vm_compute; reflexivity).
  assert (H3 : getProvider oneSingle 1 Repo None = Some (singleOf Repo (inl noOpts)))
    by (vm_compute; reflexivity).
  assert (H4 : get noReflect 3 1 Repo None oneSingle
               = (Ok (VRef 0), snd (get noReflect 3 1 Repo None oneSingle)))
    by (vm_compute; reflexivity).
  exact (single_is_built_once_at_root noReflect 1 Repo None (singleOf Repo (inl noOpts))
           3 (VRef 0) oneSingle _ 0 H1 H2 H3 eq_refl H4).
Defined.

(** ** What a build leaves behind *)

Lemma cacheAndTrack_scoped_other c p k v w x k' :
  k' <> k ->
  scopedCache (cont (cacheAndTrack c p k v w) x) !! k' = scopedCache (cont w x) !! k'.
Proof.
  intros Hne. unfold cacheAndTrack.
  assert (Hs : forall w0 y, scopedCache (cont (update y
                 (with_scopedCache (fun m => <[k := v]> m)) w0) x) !! k'
               = scopedCache (cont w0 x) !! k').
  { intros w0 y. rewrite cont_update. case_decide as Hd; [|reflexivity].
    destruct Hd as [<- _]. simpl. apply lookup_insert_ne. done. }
  repeat case_decide; rewrite ?(update_field scopedCache) by done; rewrite ?Hs;
    rewrite ?(update_field scopedCache) by done; reflexivity.
Qed.

Lemma cacheAndTrack_factory c p k v w :
  kind p = factory -> cacheAndTrack c p k v w = w.
Proof.
  intros Hk. unfold cacheAndTrack. rewrite Hk.
  rewrite (decide_False (P := factory = single)) by done.
  rewrite (decide_False (P := factory = scoped)) by done.
  rewrite (decide_False (P := factory <> factory)) by tauto. reflexivity.
Qed.

(** While a key is in flight in [c], no resolution on [c] puts it into a
    cache of [c]. *)
Lemma in_flight_not_in_caches rt c k0 fuel :
  let P w := c < length (containers w) /\ k0 ∈ resolving (cont w c) /\
             singles (cont w c) !! k0 = None /\
             scopedCache (cont w c) !! k0 = None in
  (forall i q w r w', get rt fuel c i q w = (r, w') -> P w -> P w') /\
  (forall i q w r w', getAsync rt fuel c i q w = (r, w') -> P w -> P w').
Proof.
  intros P. apply resolution_preserves; unfold P.
  - intros w cls args H. exact H.
  - intros w k (Hlt & Hin & Hs & Hc) _. unfold resolving_add.
    rewrite length_update, (update_field singles), (update_field scopedCache) by done.
    rewrite cont_update_eq by done. simpl.
    split; [done|]. split; [|done]. apply elem_of_union. right. exact Hin.
  - intros w k w2 p v (_ & Hin & _) Hnot (Hlt & Hin2 & Hs2 & Hc2).
    assert (Hne : k0 <> k) by (intros ->; done).
    unfold resolving_delete.
    rewrite length_update, cacheAndTrack_length,
      (update_field singles), (update_field scopedCache) by done.
    rewrite cont_update_eq by (rewrite cacheAndTrack_length; done). simpl.
    rewrite cacheAndTrack_resolving, cacheAndTrack_singles_other,
      cacheAndTrack_scoped_other by done.
    split; [done|]. split; [|done].
    apply elem_of_difference. split; [done|].
    rewrite elem_of_singleton. done.
Qed.

(** The state right after the build of a key: the key is still marked,
    neither cache of the container holds it, the container is there. *)
Lemma built_state rt n c p k w r w' :
  c < length (containers w) ->
  singles (cont w c) !! k = None ->
  scopedCache (cont w c) !! k = None ->
  instantiate rt (get rt n) (getAsync rt n) c p (resolving_add c k w) = (r, w') ->
  c < length (containers w') /\
  singles (cont w' c) !! k = None /\
  scopedCache (cont w' c) !! k = None /\
  stable c w w'.
Proof.
  intros Hlt Hs Hc Hi.
  destruct (in_flight_not_in_caches rt c k n) as [Hg Hga].
  assert (HP : c < length (containers w') /\ k ∈ resolving (cont w' c) /\
               singles (cont w' c) !! k = None /\ scopedCache (cont w' c) !! k = None).
  { refine (instantiate_preserves rt c _ _ _ _ Hg Hga p _ _ _ Hi _).
    - intros w0 cls args H. exact H.
    - unfold resolving_add.
      rewrite length_update, (update_field singles), (update_field scopedCache) by done.
      rewrite cont_update_eq by done. simpl.
      split; [done|]. split; [|done]. apply elem_of_union. left.
      apply elem_of_singleton. reflexivity. }
  destruct HP as (A & _ & B & C). repeat (split; [assumption|]).
  destruct (resolution_stable rt c n w) as [Sg Sga].
  refine (instantiate_preserves rt c _ _ _ _ Sg Sga p _ _ _ Hi _).
  - intros w0 cls args. apply stable_new.
  - apply stable_update_own; [|apply stable_refl]. intros x. repeat split.
Qed.

(** What [get] leaves behind when it has built an instance. *)
Lemma get_tracks rt n c X q p v w w' :
  c < length (containers w) ->
  wfParents w ->
  singles (cont w c) !! keyOf rt X q = None ->
  scopedCache (cont w c) !! keyOf rt X q = None ->
  getProvider w c X q = Some p ->
  kind p <> factory ->
  get rt n c X q w = (Ok v, w') ->
  last (disposables (cont w' c)) = Some (mkDisposable (keyOf rt X q) v (onClose p)) /\
  (kind p = single -> singles (cont w' (root w c)) !! keyOf rt X q = Some v) /\
  (kind p = scoped -> scopedCache (cont w' c) !! keyOf rt X q = Some v).
Proof.
  intros Hlt Hwf Hs Hc Hp Hk Hget.
  destruct n as [|n]; [discriminate|].
  rewrite get_S in Hget. unfold get_body in Hget. rewrite Hs, Hc, Hp in Hget.
  destruct (decide (keyOf rt X q ∈ resolving (cont w c))) as [Hin|Hnot]; [discriminate|].
  destruct (instantiate rt _ _ c p _) as [[maybe|e|] w1] eqn:Hi; try discriminate.
  destruct (isPromise maybe); [discriminate|]. injection Hget as <- <-.
  destruct (built_state _ _ _ _ _ _ _ _ Hlt Hs Hc Hi) as (Hlt1 & _ & _ & Hst).
  unfold resolving_delete. split; [|split].
  - rewrite (update_field disposables) by done.
    rewrite cacheAndTrack_disposables. rewrite decide_True by done.
    apply last_snoc.
  - intros Hsingle. rewrite (update_field singles) by done.
    assert (Hroot : root w1 c = root w c) by (apply (stable_root c w w1), Hst).
    assert (Hrlt : root w c < length (containers w1)).
    { pose proof (root_from_le (length (containers w)) w c Hwf). unfold root. lia. }
    unfold cacheAndTrack. rewrite Hsingle, Hroot.
    rewrite (decide_True (P := single = single)) by done.
    rewrite (decide_False (P := single = scoped)) by done.
    rewrite (decide_True (P := single <> factory)) by done.
    rewrite (update_field singles) by done.
    rewrite cont_update_eq by done. simpl. apply lookup_insert_eq.
  - intros Hscoped. rewrite (update_field scopedCache) by done.
    apply cacheAndTrack_scoped; done.
Qed.

(** X16: where a built instance goes.  When [get] has built an instance for
    a provider that is not of kind [factory], the instance is the last entry
    of the disposal list of the container that was asked, with the cleanup
    hook of the provider; a [single] is in the singleton cache of the root
    of that container, a [scoped] one in the scope cache of that container
    itself. *)
Theorem built_instance_is_tracked rt n c X q p v w w' :
  c < length (containers w) ->
  wfParents w ->
  singles (cont w c) !! keyOf rt X q = None ->
  scopedCache (cont w c) !! keyOf rt X q = None ->
  getProvider w c X q = Some p ->
  kind p <> factory ->
  get rt n c X q w = (Ok v, w') ->
  last (disposables (cont w' c)) = Some (mkDisposable (keyOf rt X q) v (onClose p)) /\
  (kind p = single -> singles (cont w' (root w c)) !! keyOf rt X q = Some v) /\
  (kind p = scoped -> scopedCache (cont w' c) !! keyOf rt X q = Some v).
Proof. apply get_tracks. Qed.

Lemma built_instance_is_tracked_witness :
  last (disposables (cont (snd (get noReflect 3 2 RequestCtx None twoScopes)) 2))
  = Some (mkDisposable "RequestCtx" (VRef 0) None).
Proof.
  assert (H1 : 2 < length (containers twoScopes)) by (vm_compute; lia).
  assert (H2 : singles (cont twoScopes 2) !! keyOf noReflect RequestCtx None = None)
    by (vm_compute; reflexivity).
  assert (H3 : scopedCache (cont twoScopes 2) !! keyOf noReflect RequestCtx None = None)
    by (vm_compute; reflexivity).
  assert (H4 : getProvider twoScopes 2 RequestCtx None
               = Some (scopedOf RequestCtx (inl noOpts))) by (vm_compute; reflexivity).
  assert (H5 : kind (scopedOf RequestCtx (inl noOpts)) <> factory) by discriminate.
  assert (H6 : get noReflect 3 2 RequestCtx None twoScopes
               = (Ok (VRef 0), snd (get noReflect 3 2 RequestCtx None twoScopes)))
    by (vm_compute; reflexivity).
  exact (proj1 (built_instance_is_tracked noReflect 3 2 RequestCtx None
                  (scopedOf RequestCtx (inl noOpts)) (VRef 0) twoScopes _
                  H1 twoScopes_wfParents H2 H3 H4 H5 H6)).
Defined.

(** X17: an identifier registered [factory] whose provider constructs a
    class is built on every [get]: two calls in a row return two distinct
    instances, and after the first one neither cache of the container holds
    the key. *)
Theorem factory_builds_every_time rt c X q p n m v1 v2 w w1 w2 :
  c < length (containers w) ->
  singles (cont w c) !! keyOf rt X q = None ->
  scopedCache (cont w c) !! keyOf rt X q = None ->
  getProvider w c X q = Some p ->
  kind p = factory ->
  constructsClass p ->
  get rt n c X q w = (Ok v1, w1) ->
  get rt m c X q w1 = (Ok v2, w2) ->
  v1 <> v2 /\
  singles (cont w1 c) !! keyOf rt X q = None /\
  scopedCache (cont w1 c) !! keyOf rt X q = None.
Proof.
  intros Hlt Hs Hc Hp Hk Hcl Hget1 Hget2.
  pose proof (proj1 (returning_unmarks rt c n) _ _ _ _ _ Hget1) as Hres.
  pose proof (get_stable _ _ _ _ _ _ _ _ Hget1) as Hst.
  destruct n as [|n]; [discriminate|].
  rewrite get_S in Hget1. unfold get_body in Hget1. rewrite Hs, Hc, Hp in Hget1.
  destruct (decide (keyOf rt X q ∈ resolving (cont w c))) as [Hin|Hnot]; [discriminate|].
  destruct (instantiate rt _ _ c p _) as [[maybe|e|] w'] eqn:Hi; try discriminate.
  destruct (isPromise maybe); [discriminate|]. injection Hget1 as <- <-.
  destruct (built_state _ _ _ _ _ _ _ _ Hlt Hs Hc Hi) as (Hlt1 & Hs1 & Hc1 & _).
  rewrite cacheAndTrack_factory in * by exact Hk.
  assert (Hs2 : singles (cont (resolving_delete c (keyOf rt X q) w') c) !! keyOf rt X q
                = None).
  { unfold resolving_delete. rewrite (update_field singles) by done. exact Hs1. }
  assert (Hc2 : scopedCache (cont (resolving_delete c (keyOf rt X q) w') c) !! keyOf rt X q
                = None).
  { unfold resolving_delete. rewrite (update_field scopedCache) by done. exact Hc1. }
  split; [|split; assumption].
  destruct (class_instance_address _ _ _ _ _ _ _ Hcl Hi) as (a1 & -> & Ha1).
  destruct m as [|m]; [discriminate|].
  rewrite (get_builds _ _ _ _ _ _ p) in Hget2; try assumption.
  2: { rewrite (stable_getProvider c w _ c X q Hst). exact Hp. }
  2: { rewrite Hres. exact Hnot. }
  destruct (instantiate rt (get rt m) _ c p _) as [[maybe2|e|] w''] eqn:Hi2;
    try discriminate.
  destruct (isPromise maybe2); [discriminate|]. injection Hget2 as <- <-.
  destruct (class_instance_address _ _ _ _ _ _ _ Hcl Hi2) as (a2 & -> & Ha2).
  unfold resolving_add, resolving_delete in Ha1, Ha2. rewrite !heap_update in Ha1, Ha2.
  rewrite heap_update in Ha2. intros Heq. injection Heq as ->. lia.
Qed.

Lemma factory_builds_every_time_witness :
  VRef 2 <> VRef 3 /\
  singles (cont (snd (get noReflect 5 1 Presenter None
                        (started noReflect suiteModule None))) 1)
    !! keyOf noReflect Presenter None = None.
Proof.
  set (w := started noReflect suiteModule None).
  assert (H1 : 1 < length (containers w)) by (vm_compute; lia).
  assert (H2 : singles (cont w 1) !! keyOf noReflect Presenter None = None)
    by (vm_compute; reflexivity).
  assert (H3 : scopedCache (cont w 1) !! keyOf noReflect Presenter None = None)
    by (vm_compute; reflexivity).
  assert (H4 : getProvider w 1 Presenter None
               = Some (factoryOf Presenter (withDeps [Service])))
    by (vm_compute; reflexivity).
  assert (H5 : constructsClass (factoryOf Presenter (withDeps [Service])))
    by (repeat split; eexists; reflexivity).
  assert (H6 : get noReflect 5 1 Presenter None w
               = (Ok (VRef 2), snd (get noReflect 5 1 Presenter None w)))
    by (vm_compute; reflexivity).
  assert (H7 : get noReflect 5 1 Presenter None (snd (get noReflect 5 1 Presenter None w))
               = (Ok (VRef 3),
                  snd (get noReflect 5 1 Presenter None
                         (snd (get noReflect 5 1 Presenter None w)))))
    by (vm_compute; reflexivity).
  pose proof (factory_builds_every_time noReflect 1 Presenter None
                (factoryOf Presenter (withDeps [Service])) 5 5 (VRef 2) (VRef 3)
                w _ _ H1 H2 H3 H4 eq_refl H5 H6 H7) as (Ha & Hb & _).
  split; [exact Ha | exact Hb].
Defined.

(** ** The end of a scope, and [shutdown] followed by [get] *)

Lemma shutdown_eq rt c w :
  shutdown rt c w
  = update c (fun k => mkContainer ∅ (providers k) (resolving k) (parent k) ∅ []
                                   (allowOverride k) (overrideStrategy k))
      (traced w (flat_map (cleanupCalls rt w) (rev (disposables (cont w c))))).
Proof.
  unfold shutdown. rewrite shutdown_loop_traced by done.
  rewrite firstn_all. reflexivity.
Qed.

Lemma shutdown_getProvider rt c w x i q :
  getProvider (shutdown rt c w) x i q = getProvider w x i q.
Proof.
  rewrite shutdown_eq. rewrite getProvider_update by (intros k; split; reflexivity).
  unfold getProvider. apply getProvider_from_ext. intros y. split; reflexivity.
Qed.

(** X18: a [single] built through a scope outlives the scope in the cache
    of the root.  The scope tracks the instance, so the end of the scope
    ([shutdown] of the scope) runs its cleanup, first of all; but the
    instance stays in the singleton cache of the root, and the root goes on
    returning it. *)
Theorem scope_end_leaves_root_singleton rt s X q p n v w w1 :
  s < length (containers w) ->
  wfParents w ->
  root w s <> s ->
  singles (cont w s) !! keyOf rt X q = None ->
  scopedCache (cont w s) !! keyOf rt X q = None ->
  getProvider w s X q = Some p ->
  kind p = single ->
  get rt n s X q w = (Ok v, w1) ->
  (exists rest,
     trace (shutdown rt s w1)
     = trace w ++ cleanupCalls rt w1 (mkDisposable (keyOf rt X q) v (onClose p)) ++ rest) /\
  disposables (cont (shutdown rt s w1) s) = [] /\
  singles (cont (shutdown rt s w1) (root w s)) !! keyOf rt X q = Some v /\
  (forall m, get rt (S m) (root w s) X q (shutdown rt s w1) = (Ok v, shutdown rt s w1)).
Proof.
  intros Hlt Hwf Hscope Hs Hc Hp Hk Hget.
  assert (Hnf : kind p <> factory) by (rewrite Hk; discriminate).
  destruct (get_tracks _ _ _ _ _ _ _ _ _ Hlt Hwf Hs Hc Hp Hnf Hget) as (Hlast & Hsing & _).
  specialize (Hsing Hk).
  pose proof (get_stable _ _ _ _ _ _ _ _ Hget) as Hst.
  destruct Hst as (Hlen & _ & Htr & _).
  assert (Hroot : singles (cont (shutdown rt s w1) (root w s)) !! keyOf rt X q = Some v).
  { rewrite shutdown_eq. rewrite cont_update_ne by done. rewrite cont_traced. exact Hsing. }
  split; [|split; [|split]].
  - apply last_Some in Hlast as [ds Hds].
    rewrite shutdown_eq, trace_update. unfold traced; simpl.
    rewrite Hds, rev_app_distr. simpl. rewrite Htr. eexists. reflexivity.
  - rewrite shutdown_eq. rewrite cont_update_eq; [reflexivity|].
    unfold traced; simpl. lia.
  - exact Hroot.
  - intros m. rewrite get_S. unfold get_body. rewrite Hroot. reflexivity.
Qed.

Lemma scope_end_leaves_root_singleton_witness :
  (exists rest,
     trace (shutdown noReflect 2 (snd (get noReflect 3 2 Db None dbInScope)))
     = trace dbInScope
       ++ cleanupCalls noReflect (snd (get noReflect 3 2 Db None dbInScope))
            (mkDisposable (keyOf noReflect Db None) (VRef 0) None) ++ rest) /\
  singles (cont (shutdown noReflect 2 (snd (get noReflect 3 2 Db None dbInScope)))
             (root dbInScope 2))
    !! keyOf noReflect Db None = Some (VRef 0).
Proof.
  assert (H1 : 2 < length (containers dbInScope)) by (vm_compute; lia).
  assert (H2 : wfParents dbInScope).
  { intros x up. destruct x as [|[|[|x]]]; vm_compute; try discriminate.
    intros [= <-]. lia. }
  assert (H3 : root dbInScope 2 <> 2) by (vm_compute; discriminate).
  assert (H4 : singles (cont dbInScope 2) !! keyOf noReflect Db None = None)
    by (vm_compute; reflexivity).
  assert (H5 : scopedCache (cont dbInScope 2) !! keyOf noReflect Db None = None)
    by (vm_compute; reflexivity).
  assert (H6 : getProvider dbInScope 2 Db None = Some (singleOf Db (inl noOpts)))
    by (vm_compute; reflexivity).
  assert (H7 : get noReflect 3 2 Db None dbInScope
               = (Ok (VRef 0), snd (get noReflect 3 2 Db None dbInScope)))
    by (vm_compute; reflexivity).
  pose proof (scope_end_leaves_root_singleton noReflect 2 Db None
                (singleOf Db (inl noOpts)) 3 (VRef 0) dbInScope _
                H1 H2 H3 H4 H5 H6 eq_refl H7) as (Ha & _ & Hb & _).
  split; [exact Ha | exact Hb].
Defined.

(** X19: [shutdown] drops the caches and keeps the registry, so the next
    [get] builds anew.  For a provider that constructs a class, the instance
    returned after the [shutdown] is not the one returned before it, and the
    provider found is the same. *)
Theorem shutdown_then_get_rebuilds rt c X q p n m v1 v2 w w1 w3 :
  c < length (containers w) ->
  singles (cont w c) !! keyOf rt X q = None ->
  scopedCache (cont w c) !! keyOf rt X q = None ->
  getProvider w c X q = Some p ->
  constructsClass p ->
  get rt n c X q w = (Ok v1, w1) ->
  get rt m c X q (shutdown rt c w1) = (Ok v2, w3) ->
  v1 <> v2 /\ getProvider (shutdown rt c w1) c X q = Some p.
Proof.
  intros Hlt Hs Hc Hp Hcl Hget1 Hget2.
  pose proof (proj1 (returning_unmarks rt c n) _ _ _ _ _ Hget1) as Hres.
  pose proof (get_stable _ _ _ _ _ _ _ _ Hget1) as Hst.
  assert (Hp1 : getProvider (shutdown rt c w1) c X q = Some p).
  { rewrite shutdown_getProvider, (stable_getProvider c w w1 c X q Hst). exact Hp. }
  split; [|exact Hp1].
  assert (Hlt1 : c < length (containers w1)) by (destruct Hst as (-> & _); exact Hlt).
  destruct n as [|n]; [discriminate|].
  rewrite get_S in Hget1. unfold get_body in Hget1. rewrite Hs, Hc, Hp in Hget1.
  destruct (decide (keyOf rt X q ∈ resolving (cont w c))) as [Hin|Hnot]; [discriminate|].
  destruct (instantiate rt _ _ c p _) as [[maybe|e|] w'] eqn:Hi; try discriminate.
  destruct (isPromise maybe); [discriminate|]. injection Hget1 as <- <-.
  destruct (class_instance_address _ _ _ _ _ _ _ Hcl Hi) as (a1 & -> & Ha1).
  set (w1 := resolving_delete c (keyOf rt X q)
               (cacheAndTrack c p (keyOf rt X q) (VRef a1) w')) in *.
  assert (Hh1 : heap w1 = heap w').
  { unfold w1, resolving_delete. rewrite heap_update. apply cacheAndTrack_heap. }
  destruct m as [|m]; [discriminate|].
  rewrite (get_builds _ _ _ _ _ _ p) in Hget2; [| | |exact Hp1|].
  - destruct (instantiate rt (get rt m) _ c p _) as [[maybe2|e|] w''] eqn:Hi2;
      try discriminate.
    destruct (isPromise maybe2); [discriminate|]. injection Hget2 as <- <-.
    destruct (class_instance_address _ _ _ _ _ _ _ Hcl Hi2) as (a2 & -> & Ha2).
    unfold resolving_add in Ha2. rewrite heap_update, shutdown_eq, heap_update in Ha2.
    change (heap (traced w1 _)) with (heap w1) in Ha2. rewrite Hh1 in Ha2.
    intros Heq. injection Heq as ->. lia.
  - rewrite shutdown_eq, cont_update_eq by (unfold traced; simpl; exact Hlt1).
    reflexivity.
  - rewrite shutdown_eq, cont_update_eq by (unfold traced; simpl; exact Hlt1).
    reflexivity.
  - rewrite shutdown_eq, (update_field resolving) by done. rewrite cont_traced.
    rewrite Hres. exact Hnot.
Qed.

Lemma shutdown_then_get_rebuilds_witness :
  VRef 0 <> VRef 1 /\
  getProvider (shutdown noReflect 1 (snd (get noReflect 3 1 Repo None oneSingle)))
    1 Repo None = Some (singleOf Repo (inl noOpts)).
Proof.
  assert (H1 : 1 < length (containers oneSingle)) by (vm_compute; lia).
  assert (H2 : singles (cont oneSingle 1) !! keyOf noReflect Repo None = None)
    by (vm_compute; reflexivity).
  assert (H3 : scopedCache (cont oneSingle 1) !! keyOf noReflect Repo None = None)
    by (vm_compute; reflexivity).
  assert (H4 : getProvider oneSingle 1 Repo None = Some (singleOf Repo (inl noOpts)))
    by (vm_compute; reflexivity).
  assert (H5 : constructsClass (singleOf Repo (inl noOpts)))
    by (repeat split; eexists; reflexivity).
  assert (H6 : get noReflect 3 1 Repo None oneSingle
               = (Ok (VRef 0), snd (get noReflect 3 1 Repo None oneSingle)))
    by (vm_compute; reflexivity).
  assert (H7 : get noReflect 3 1 Repo None
                 (shutdown noReflect 1 (snd (get noReflect 3 1 Repo None oneSingle)))
               = (Ok (VRef 1),
                  snd (get noReflect 3 1 Repo None
                         (shutdown noReflect 1
                            (snd (get noReflect 3 1 Repo None oneSingle))))))
    by (vm_compute; reflexivity).
  exact (shutdown_then_get_rebuilds noReflect 1 Repo None (singleOf Repo (inl noOpts))
           3 3 (VRef 0) (VRef 1) oneSingle _ _ H1 H2 H3 H4 H5 H6 H7).
Defined.

(** ** [getAsync] beside [get] *)

Lemma await_value v w : isPromise v = false -> await v w = (Ok v, w).
Proof. destruct v; simpl; intros H; try discriminate; reflexivity. Qed.

Lemma getAsync_in_flight rt n this ident q w p :
  singles (cont w this) !! keyOf rt ident q = None ->
  scopedCache (cont w this) !! keyOf rt ident q = None ->
  getProvider w this ident q = Some p ->
  keyOf rt ident q ∈ resolving (cont w this) ->
  getAsync rt (S n) this ident q w = (Throw (CircularDependency (keyOf rt ident q)), w).
Proof.
  intros Hs Hc Hp Hr. rewrite getAsync_S. unfold getAsync_body.
  rewrite Hs, Hc, Hp. rewrite decide_True by done. reflexivity.
Qed.

(** X20: [getAsync] finds the cycles of explicit dependency declarations as
    [get] does.  For a set [rs] of requests closed under "first declared
    dependency", none of them cached, [getAsync] of a request of [rs] is
    rejected with the circular-dependency error that names the key of a
    request of [rs], with any fuel above the number of requests: the
    declared dependencies of a class are resolved with the synchronous
    [get], also under [getAsync]. *)
Theorem getAsync_cycle_detected rt w this rs r fuel :
  this < length (containers w) ->
  cyclic rt w this rs ->
  r ∈ rs ->
  length rs < fuel ->
  exists r' w', r' ∈ rs /\
    getAsync rt fuel this r.1 r.2 w
    = (Throw (CircularDependency (keyOf rt r'.1 r'.2)), w').
Proof.
  intros Hlt Hcyc Hr Hfuel.
  destruct fuel as [|n]; [lia|].
  destruct (Hcyc r Hr) as (Hs & Hc & b & (p & ds & Hp & Hv & Hf & [cls Hcl] & Hd) & Hb).
  destruct (decide (keyOf rt r.1 r.2 ∈ resolving (cont w this))) as [Hin|Hnot].
  - exists r, w. split; [done|]. apply (getAsync_in_flight _ _ _ _ _ _ p); done.
  - rewrite (getAsync_builds _ _ _ _ _ _ p) by done.
    unfold instantiate. rewrite Hv, Hf, Hcl, Hd.
    change (negb (isUndefined VUndefined)) with false. cbv iota.
    assert (Hpos : 0 < length rs).
    { destruct rs; [by apply elem_of_nil in Hr | simpl; lia]. }
    destruct (cycle_detected_aux rt this rs (length rs - 1)
                (resolving_add this (keyOf rt r.1 r.2) w) (b, None))
      with (fuel := n) as (r' & w' & Hr' & Hget).
    + unfold resolving_add. rewrite length_update. done.
    + apply cyclic_resolving_add, Hcyc.
    + done.
    + rewrite resolving_add_elem by done.
      pose proof (size_difference_add (keysOf rt rs) (resolving (cont w this))
                    (keyOf rt r.1 r.2) (keysOf_elem _ _ _ Hr) Hnot) as H0.
      pose proof (subseteq_size (keysOf rt rs ∖ resolving (cont w this)) (keysOf rt rs)
                    ltac:(apply subseteq_difference_l; reflexivity)) as H1.
      pose proof (size_list_to_set_length (map (fun r => keyOf rt r.1 r.2) rs)) as H2.
      rewrite length_map in H2. unfold keysOf in *.
      apply Nat.lt_succ_r. replace (S (length rs - 1)) with (length rs) by lia.
      eapply Nat.lt_le_trans; [exact H0|]. etrans; [exact H1 | exact H2].
    + lia.
    + exists r', w'. split; [done|].
      simpl in Hget. unfold bind at 1.
      rewrite (mapM_first_throws (fun d => get rt n this d None) b ds _ _ _ Hget).
      reflexivity.
Qed.

Lemma getAsync_cycle_detected_witness :
  exists r' w', r' ∈ [(ClassA, None); (ClassB, None)] /\
    getAsync noReflect 3 1 ClassA None aNeedsB
    = (Throw (CircularDependency (keyOf noReflect r'.1 r'.2)), w').
Proof.
  assert (H1 : 1 < length (containers aNeedsB)) by (vm_compute; lia).
  assert (H2 : cyclic noReflect aNeedsB 1 [(ClassA, None); (ClassB, None)]).
  { intros r Hr. apply elem_of_cons in Hr as [->|Hr];
      [|apply elem_of_cons in Hr as [->|Hr]; [|by apply elem_of_nil in Hr]].
    - split; [vm_compute; reflexivity|]. split; [vm_compute; reflexivity|].
      exists ClassB. split.
      + exists (singleOf ClassA (withDeps [ClassB])), [].
        repeat split; try (vm_compute; reflexivity). eexists; reflexivity.
      + apply elem_of_cons. right. apply elem_of_cons. left. reflexivity.
    - split; [vm_compute; reflexivity|]. split; [vm_compute; reflexivity|].
      exists ClassA. split.
      + exists (singleOf ClassB (withDeps [ClassA])), [].
        repeat split; try (vm_compute; reflexivity). eexists; reflexivity.
      + apply elem_of_cons. left. reflexivity. }
  assert (H3 : (ClassA, None) ∈ [(ClassA, @None Qualifier); (ClassB, None)])
    by (apply elem_of_cons; left; reflexivity).
  assert (H4 : length [(ClassA, @None Qualifier); (ClassB, None)] < 3) by (simpl; lia).
  exact (getAsync_cycle_detected noReflect aNeedsB 1 [(ClassA, None); (ClassB, None)]
           (ClassA, None) 3 H1 H2 H3 H4).
Defined.

(** X21: on a key that is cached or registered, [getAsync] agrees with
    [get]: when [get] returns a value that is not a promise, [getAsync]
    with the same fuel from the same state resolves to the same value and
    leaves the same state. *)
Theorem getAsync_agrees_with_get rt n c i q w v w' :
  is_Some (singles (cont w c) !! keyOf rt i q) \/
  is_Some (scopedCache (cont w c) !! keyOf rt i q) \/
  is_Some (getProvider w c i q) ->
  get rt n c i q w = (Ok v, w') ->
  isPromise v = false ->
  getAsync rt n c i q w = (Ok v, w').
Proof.
  intros Hknown Hget Hv.
  destruct n as [|n]; [discriminate|].
  rewrite get_S in Hget. rewrite getAsync_S.
  unfold get_body in Hget. unfold getAsync_body.
  destruct (singles (cont w c) !! keyOf rt i q) as [v0|] eqn:Hs.
  { injection Hget as <- <-. apply await_value, Hv. }
  destruct (scopedCache (cont w c) !! keyOf rt i q) as [v0|] eqn:Hc.
  { injection Hget as <- <-. apply await_value, Hv. }
  destruct (getProvider w c i q) as [p|] eqn:Hp.
  2: { destruct Hknown as [[? ?]|[[? ?]|[? ?]]]; discriminate. }
  destruct (decide (keyOf rt i q ∈ resolving (cont w c))); [discriminate|].
  destruct (instantiate rt _ _ c p _) as [[maybe|e|] w1]; try discriminate.
  destruct (isPromise maybe) eqn:Hm; [discriminate|].
  injection Hget as <- <-. rewrite (await_value _ _ Hm). reflexivity.
Qed.

Lemma getAsync_agrees_with_get_witness :
  getAsync noReflect 5 1 Service None (started noReflect suiteModule None)
  = (Ok (VRef 1), snd (get noReflect 5 1 Service None (started noReflect suiteModule None))).
Proof.
  set (w := started noReflect suiteModule None).
  assert (H1 : is_Some (singles (cont w 1) !! keyOf noReflect Service None) \/
               is_Some (scopedCache (cont w 1) !! keyOf noReflect Service None) \/
               is_Some (getProvider w 1 Service None)).
  { right. right. exists (singleOf Service (withDeps [Repo])). vm_compute. reflexivity. }
  assert (H2 : get noReflect 5 1 Service None w
               = (Ok (VRef 1), snd (get noReflect 5 1 Service None w)))
    by (vm_compute; reflexivity).
  exact (getAsync_agrees_with_get noReflect 5 1 Service None w (VRef 1) _ H1 H2 eq_refl).
Defined.

(** ** Keys *)

(** X22: what [keyOf] tells apart for one identifier, and what it does not.
    The key without qualifier differs from every key with one; two string
    qualifiers give one key only when they are equal.  But a symbol counts
    by its description alone: two symbols with one description give one
    key, the key of the string qualifier "Symbol(description)"; and two
    identifiers with one name give the same keys. *)
Theorem keyOf_qualifiers rt i :
  (forall q, keyOf rt i None <> keyOf rt i (Some q)) /\
  (forall s s', keyOf rt i (Some (QString s)) = keyOf rt i (Some (QString s')) -> s = s') /\
  (forall a b d, keyOf rt i (Some (QSymbol a d)) = keyOf rt i (Some (QSymbol b d))) /\
  (forall a d, keyOf rt i (Some (QSymbol a d))
               = keyOf rt i (Some (QString ("Symbol(" +:+ d +:+ ")")))) /\
  (forall j q, fn_name rt i = fn_name rt j -> keyOf rt i q = keyOf rt j q).
Proof.
  unfold keyOf. repeat split.
  - intros q H. apply String.app_inj in H. discriminate.
  - intros s s' H. apply String.app_inj in H.
    apply (String.app_inj "::") in H. exact H.
  - intros j q ->. reflexivity.
Qed.

(** ** The functions of the module *)

Lemma setProvider_success rt this p w w0 :
  this < length (containers w) ->
  setProvider rt this p w = (Ok tt, w0) ->
  getProvider w0 this (id p) (qualifier p) = Some p.
Proof.
  intros Hlt. rewrite setProvider_cases.
  destruct (bool_decide _ && _); [discriminate|]. intros [= <-].
  apply getProvider_local; [rewrite length_update; done|].
  rewrite registered_after_insert by done. rewrite decide_True by done. done.
Qed.

(** X23: an override outlives [shutdownDI].  [shutdown] empties the caches
    but keeps the registry, where [override] has put a provider of the
    value: the next [inject] of the key builds it from that provider.  It
    returns the overriding value again (not an instance of the class that
    was registered before); but an override with [undefined] has left a
    provider that cannot be built, and an override with a promise one that
    [inject] refuses. *)
Theorem override_survives_shutdown rt i v q w w1 n :
  _container w < length (containers w) ->
  overrideDI rt i v q w = (Ok tt, w1) ->
  keyOf rt i q ∉ resolving (cont w (_container w)) ->
  fst (inject rt (S n) i q (shutdownDI rt w1))
  = if isUndefined v then Throw (InvalidProvider (keyOf rt i q))
    else if isPromise v then Throw (AsyncInSyncGet (keyOf rt i q))
    else Ok v.
Proof.
  intros Hlt Hov Hnot.
  set (c := _container w) in *.
  set (p := mkProvider single i q None None v None None).
  unfold overrideDI, override, bind in Hov. fold c p in Hov.
  destruct (setProvider rt c p w) as [[[]|e|] w0] eqn:Es; try discriminate.
  injection Hov as <-.
  pose proof (setProvider_success _ _ _ _ _ Hlt Es) as Hp0. simpl in Hp0.
  pose proof (setProvider_frame _ _ _ _ _ _ Es) as (_ & _ & Hc0 & Hl0 & _ & Hf0).
  set (w1 := update (root w0 c) (with_singles (fun m => <[keyOf rt i q := v]> m)) w0).
  assert (Hc1 : _container w1 = c) by exact Hc0.
  assert (Hl1 : c < length (containers w1)).
  { unfold w1. rewrite length_update, Hl0. exact Hlt. }
  unfold shutdownDI, inject. rewrite Hc1.
  assert (Hc2 : _container (shutdown rt c w1) = c) by (rewrite shutdown_eq; exact Hc1).
  rewrite Hc2.
  rewrite (get_builds _ _ _ _ _ _ p).
  - unfold instantiate. change (useValue p) with v.
    destruct (isUndefined v); simpl; [reflexivity|].
    unfold ret. destruct (isPromise v); reflexivity.
  - rewrite shutdown_eq, cont_update_eq by exact Hl1. reflexivity.
  - rewrite shutdown_eq, cont_update_eq by exact Hl1. reflexivity.
  - rewrite shutdown_getProvider. unfold w1.
    rewrite getProvider_update by (intros x; split; reflexivity). exact Hp0.
  - rewrite shutdown_eq, (update_field resolving) by done. rewrite cont_traced.
    unfold w1. rewrite (update_field resolving) by done.
    destruct (Hf0 c) as (_ & _ & -> & _). exact Hnot.
Qed.

Lemma override_survives_shutdown_witness :
  fst (inject noReflect 1 Repo None
         (shutdownDI noReflect
            (snd (overrideDI noReflect Repo (VPrim "fake") None overridable))))
  = Ok (VPrim "fake").
Proof.
  assert (H1 : _container overridable < length (containers overridable))
    by (vm_compute; lia).
  assert (H2 : overrideDI noReflect Repo (VPrim "fake") None overridable
               = (Ok tt, snd (overrideDI noReflect Repo (VPrim "fake") None overridable)))
    by (vm_compute; reflexivity).
  assert (H3 : keyOf noReflect Repo None
               ∉ resolving (cont overridable (_container overridable))).
  { assert (Hres : resolving (cont overridable (_container overridable)) = ∅)
      by (vm_compute; reflexivity).
    rewrite Hres. apply not_elem_of_empty. }
  exact (override_survives_shutdown noReflect Repo (VPrim "fake") None overridable _ 0
           H1 H2 H3).
Defined.
